(** * Load balancer: Round-Robin, Least-Connections and Load-Aware routers

    A shallow embedding of [load_balancer.py].  Every method of the three
    router classes and of the [LoadBalancer] facade is a computation in a small
    state-and-exception monad; the wall clock and the random generator are
    oracles that a call consumes one reading at a time.

    Numbers.  Request sizes, capacities, loads, counters and priorities are
    Python integers ([Z]).  Clock readings, durations and load ratios are
    Python floats; they are embedded as exact rationals ([Q]), so that the
    literals of the source ([0.01], [0.1], [0.005], [5]) appear as they are
    written and only order, sum, difference and quotient are used.  The
    rounding of float arithmetic is not modelled: a sum, a difference or a
    quotient is the exact one, where the source has the nearest float.

    Locks.  Each router method body runs under the router's lock, so the
    methods are atomic steps; the [with self.lock:] blocks do not appear. *)

From Stdlib Require Import QArith Lqa.
From stdpp Require Import base list strings gmap sorting.
Close Scope Q_scope.
Open Scope Z_scope.

(** ** Exceptions, the world, and the monad *)

Inductive exn : Type := IndexError | KeyError | NameError | ZeroDivisionError.

Inductive outcome (A : Type) : Type :=
| Return (a : A)
| Raise (e : exn).
Arguments Return {A} a.
Arguments Raise {A} e.

(** [clock k] is what the [k]-th call of [time.time()] returns and [rng k]
    what the [k]-th call of [random.random()] returns (a number in [0,1));
    [ticks] and [draws] count the calls made so far. *)
Record World : Type := {
  clock : nat -> Q;
  rng : nat -> Q;
  ticks : nat;
  draws : nat
}.

Record Res (S A : Type) : Type := {
  out : outcome A;
  st : S;
  world : World
}.
Arguments out {S A} r.
Arguments st {S A} r.
Arguments world {S A} r.

Definition M (S A : Type) : Type := World -> S -> Res S A.

Definition ret {S A} (a : A) : M S A := fun w s =>
  {| out := Return a; st := s; world := w |}.

(** An exception stops the computation; what was written to the state before
    it stays written. *)
Definition bind {S A B} (m : M S A) (k : A -> M S B) : M S B := fun w s =>
  let r := m w s in
  match out r with
  | Return a => k a (world r) (st r)
  | Raise e => {| out := Raise e; st := st r; world := world r |}
  end.

Declare Scope py_scope.
Delimit Scope py_scope with py.
Bind Scope py_scope with M.
Notation "x <- m ;; k" := (bind m (fun x => k))
  (at level 100, m at next level, right associativity) : py_scope.
Notation "m ;; k" := (bind m (fun _ => k))
  (at level 100, right associativity) : py_scope.
Open Scope py_scope.

Definition raise {S A} (e : exn) : M S A := fun w s =>
  {| out := Raise e; st := s; world := w |}.

Definition get {S} : M S S := fun w s =>
  {| out := Return s; st := s; world := w |}.

Definition put {S} (s : S) : M S unit := fun w _ =>
  {| out := Return tt; st := s; world := w |}.

Definition modify {S} (f : S -> S) : M S unit := fun w s =>
  {| out := Return tt; st := f s; world := w |}.

Definition tick (w : World) : World :=
  {| clock := clock w; rng := rng w; ticks := S (ticks w); draws := draws w |}.

Definition draw (w : World) : World :=
  {| clock := clock w; rng := rng w; ticks := ticks w; draws := S (draws w) |}.

(** The world after [n] more readings of the clock. *)
Fixpoint advance (n : nat) (w : World) : World :=
  match n with
  | O => w
  | S n' => advance n' (tick w)
  end.

(** [m] keeps [I]: from a state that satisfies [I], in any world and with
    any outcome, [m] leaves a state that satisfies [I]. *)
Definition keeps {S A} (I : S -> Prop) (m : M S A) : Prop :=
  forall w s, I s -> I (st (m w s)).

(** [m] is steady: it leaves the clock function as it is and never moves
    the count of readings back. *)
Definition steady {S A} (m : M S A) : Prop :=
  forall w s, clock (world (m w s)) = clock w /\
              (ticks w <= ticks (world (m w s)))%nat.

(** [time.time()] *)
Definition time_time {S} : M S Q := fun w s =>
  {| out := Return (clock w (ticks w)); st := s; world := tick w |}.

(** [random.random()] *)
Definition random_random {S} : M S Q := fun w s =>
  {| out := Return (rng w (draws w)); st := s; world := draw w |}.

(** [random.uniform(a, b)], which is [a + (b - a) * random()]; the sum and
    the product are exact here and rounded in the source. *)
Definition random_uniform {S} (a b : Q) : M S Q :=
  r <- random_random;; ret (a + (b - a) * r)%Q.

(** [for x in l: body(x)] *)
Fixpoint for_each {S A} (l : list A) (body : A -> M S unit) : M S unit :=
  match l with
  | [] => ret tt
  | x :: l' => body x;; for_each l' body
  end.

(** A list comprehension [[x for x in l if cond(x)]] whose condition may
    raise. *)
Fixpoint filter_comp {S A} (cond : A -> M S bool) (l : list A) : M S (list A) :=
  match l with
  | [] => ret []
  | x :: l' =>
      b <- cond x;;
      keep <- filter_comp cond l';;
      ret (if b then x :: keep else keep)
  end.

(** [[f(x) for x in l]] where [f] may raise. *)
Fixpoint map_comp {S A B} (f : A -> M S B) (l : list A) : M S (list B) :=
  match l with
  | [] => ret []
  | x :: l' => y <- f x;; ys <- map_comp f l';; ret (y :: ys)
  end.

(** ** Python values *)

(** [a < b] on floats. *)
Definition Qltb (a b : Q) : bool := negb (Qle_bool b a).

(** [l[i]]: a negative index counts from the end. *)
Definition list_getitem {S A} (l : list A) (i : Z) : M S A :=
  let n := Z.of_nat (length l) in
  let j := if i <? 0 then i + n else i in
  if (0 <=? j) && (j <? n) then
    match l !! Z.to_nat j with
    | Some x => ret x
    | None => raise IndexError
    end
  else raise IndexError.

(** [a % b] on integers; Python's remainder has the sign of the divisor, as
    [Z.modulo] has. *)
Definition py_mod {S} (a b : Z) : M S Z :=
  if b =? 0 then raise ZeroDivisionError else ret (a mod b).

(** [a / b] on integers: true division.  The quotient is exact here; the
    source rounds it to the nearest float, and raises [OverflowError] when
    it is beyond the range of floats, which is left out.  Two quotients
    [a / b] with [0 <= a <= b < 2 ^ 25] that differ, differ by more than
    [2 ^ -50], so their floats are ordered as they are. *)
Definition py_truediv {S} (a b : Z) : M S Q :=
  if b =? 0 then raise ZeroDivisionError else ret (inject_Z a / inject_Z b)%Q.

(** A [dict] with string keys, in insertion order (the order in which
    iteration and [min] visit it).  Keys are unique in a dict; operations by
    key act on the first entry that has the key. *)
Definition dict (V : Type) : Type := list (string * V).

Fixpoint dict_lookup {V} (d : dict V) (k : string) : option V :=
  match d with
  | [] => None
  | (k', v) :: d' => if String.eqb k' k then Some v else dict_lookup d' k
  end.

(** [d[k]] *)
Definition dict_getitem {S V} (d : dict V) (k : string) : M S V :=
  match dict_lookup d k with
  | Some v => ret v
  | None => raise KeyError
  end.

(** [d[k] = v] for a key that the dict has: the entry keeps its place. *)
Fixpoint dict_update {V} (d : dict V) (k : string) (v : V) : dict V :=
  match d with
  | [] => []
  | (k', v') :: d' =>
      if String.eqb k' k then (k', v) :: d' else (k', v') :: dict_update d' k v
  end.

(** The dict after [del d[k]]. *)
Fixpoint dict_remove {V} (d : dict V) (k : string) : dict V :=
  match d with
  | [] => []
  | (k', v') :: d' =>
      if String.eqb k' k then d' else (k', v') :: dict_remove d' k
  end.

(** [min(first :: rest, key=key)]: the first element whose key is least.  The
    running minimum is replaced only by an element whose key is strictly
    smaller. *)
Fixpoint py_min {A K} (lt : K -> K -> bool) (key : A -> K)
    (best : A) (rest : list A) : A :=
  match rest with
  | [] => best
  | x :: rest' =>
      py_min lt key (if lt (key x) (key best) then x else best) rest'
  end.

(** Truth value of [None] or a string: [None] and the empty string are
    false. *)
Definition truthy (server : option string) : bool :=
  match server with
  | Some name => negb (String.eqb name "")
  | None => false
  end.

(** ** class RoundRobinBalancer *)

Module RoundRobinBalancer.

Record state : Type := {
  servers : list string;
  capacities : dict Z;
  index : Z
}.

(** [__init__(self, servers)] *)
Definition init (servers : dict Z) : state :=
  {| servers := servers.*1; capacities := servers; index := 0 |}.

Definition set_index (i : Z) (self : state) : state :=
  {| servers := servers self; capacities := capacities self; index := i |}.

(** [assign_request(self, request_size)]; [None] is the rejection. *)
Definition assign_request (request_size : Z) : M state (option string) :=
  self <- get;;
  server <- list_getitem (servers self) (index self);;
  next <- py_mod (index self + 1) (Z.of_nat (length (servers self)));;
  modify (set_index next);;
  capacity <- dict_getitem (capacities self) server;;
  if request_size >? capacity then ret None else ret (Some server).

(** The states a router goes through: construction over a dict, then calls
    of [assign_request]. *)
Inductive reachable : state -> Prop :=
| reachable_init (pool : dict Z) :
    NoDup pool.*1 -> reachable (init pool)
| reachable_assign (self : state) (w : World) (request_size : Z) :
    reachable self -> reachable (st (assign_request request_size w self)).

(** What holds of every reachable state: the list of names is the key list of
    the capacity dict, and the index is a position of the list. *)
Definition well_formed (self : state) : Prop :=
  servers self = (capacities self).*1 /\
  0 <= index self /\
  (servers self <> [] -> index self < Z.of_nat (length (servers self))).

End RoundRobinBalancer.

(** ** class LeastConnectionsBalancer *)

Module LeastConnectionsBalancer.

(** One value of [self.servers]; an active request is the pair
    [(completion_time, size)]. *)
Record server : Type := {
  connections : Z;
  capacity : Z;
  current_load : Z;
  active_requests : list (Q * Z)
}.

Record state : Type := {
  servers : dict server
}.

(** [__init__(self, servers)] *)
Definition init (pool : dict Z) : state :=
  {| servers :=
       (fun '(name, cap) =>
          (name, {| connections := 0; capacity := cap; current_load := 0;
                    active_requests := [] |})) <$> pool |}.

(** One pass of the inner loop of [_process_completed_requests], for one
    completed request. *)
Definition complete_one (data : server) (r : Q * Z) : server :=
  {| connections := connections data - 1;
     capacity := capacity data;
     current_load := current_load data - r.2;
     active_requests := active_requests data |}.

(** The body of the outer loop of [_process_completed_requests]. *)
Definition reclaim (current_time : Q) (data : server) : server :=
  let completed :=
    List.filter (fun r => Qle_bool r.1 current_time) (active_requests data) in
  match completed with
  | [] => data
  | _ :: _ =>
      let data' := foldl complete_one data completed in
      {| connections := connections data';
         capacity := capacity data';
         current_load := current_load data';
         active_requests :=
           List.filter (fun r => Qltb current_time r.1) (active_requests data) |}
  end.

(** [_process_completed_requests(self)]: the reclaim pass. *)
Definition _process_completed_requests : M state unit :=
  current_time <- time_time;;
  self <- get;;
  put {| servers := (fun '(name, data) => (name, reclaim current_time data))
                      <$> servers self |}.

(** The three updates of the chosen server in [assign_request]: one more
    connection, [request_size] more load, one more active request.  The
    source draws the processing time and reads the clock between the second
    and the third; nothing in between can raise, so they are written
    together. *)
Definition accept (request_size : Z) (completion_time : Q) (data : server)
    : server :=
  {| connections := connections data + 1;
     capacity := capacity data;
     current_load := current_load data + request_size;
     active_requests := active_requests data ++ [(completion_time, request_size)] |}.

(** [assign_request(self, request_size)].  [eligible_servers] maps a name to
    the very object [self.servers] holds for it, so the key function of
    [min], [self.servers[s]["connections"]], reads the entry it ranges over. *)
Definition assign_request (request_size : Z) : M state (option string) :=
  _process_completed_requests;;
  self <- get;;
  let eligible_servers :=
    List.filter
      (fun '(_, data) => request_size <=? capacity data - current_load data)
      (servers self) in
  match eligible_servers with
  | [] => ret None
  | first :: others =>
      let server := (py_min Z.ltb (fun sd => connections sd.2) first others).1 in
      data <- dict_getitem (servers self) server;;
      processing_time <- random_uniform (1 # 100) (1 # 10);;
      now <- time_time;;
      let completion_time := (now + processing_time)%Q in
      put {| servers := dict_update (servers self) server
                          (accept request_size completion_time data) |};;
      ret (Some server)
  end.

(** [release_connection(self, server, request_size)]: [pass]. *)
Definition release_connection (server : string) (request_size : Z)
    : M state unit :=
  ret tt.

(** The states a router goes through: construction over a dict, then calls
    of [assign_request] and [release_connection]. *)
Inductive reachable : state -> Prop :=
| reachable_init (pool : dict Z) :
    NoDup pool.*1 -> reachable (init pool)
| reachable_assign (self : state) (w : World) (request_size : Z) :
    reachable self -> reachable (st (assign_request request_size w self))
| reachable_release (self : state) (w : World) (server : string) (request_size : Z) :
    reachable self ->
    reachable (st (release_connection server request_size w self)).

(** The servers as [assign_request] sees them after the reclaim pass. *)
Definition reclaimed (w : World) (self : state) : dict server :=
  (fun '(name, data) => (name, reclaim (clock w (ticks w)) data)) <$> servers self.

(** The sum of the sizes of a server's active requests. *)
Definition total_size (active : list (Q * Z)) : Z :=
  foldr (fun r acc => r.2 + acc) 0 active.

(** The counters of a server agree with its list of active requests. *)
Definition balanced (data : server) : Prop :=
  connections data = Z.of_nat (length (active_requests data)) /\
  current_load data = total_size (active_requests data).

(** A server that is not over-committed and holds only requests of
    non-negative size. *)
Definition within_capacity (data : server) : Prop :=
  current_load data <= capacity data /\
  Forall (fun r => 0 <= r.2) (active_requests data).

(** The condition of [eligible_servers]: the request fits the free
    capacity. *)
Definition fits (request_size : Z) (data : server) : Prop :=
  request_size <= capacity data - current_load data.

(** The names and the configured capacities, in dict order. *)
Definition layout (d : dict server) : list (string * Z) :=
  (fun '(name, data) => (name, capacity data)) <$> d.

End LeastConnectionsBalancer.

(** ** class LoadAwareBalancer *)

Module LoadAwareBalancer.

(** The ['status'] of a server.  The source writes ['healthy'] at
    construction and compares with it; nothing writes another value. *)
Inductive status_t : Type := healthy | unhealthy.

Definition is_healthy (s : status_t) : bool :=
  match s with healthy => true | unhealthy => false end.

(** One value of [self.servers]; [active_requests] maps a request id to
    [(completion_time, size)]. *)
Record server : Type := {
  capacity : Z;
  active_requests : gmap Z (Q * Z);
  current_load : Z;
  status : status_t
}.

(** A tuple of the pending queue: [(priority, timestamp, req_id, req_size)]. *)
Definition entry : Type := Z * Q * Z * Z.

Definition priority_of (e : entry) : Z := e.1.1.1.
Definition timestamp_of (e : entry) : Q := e.1.1.2.
Definition req_id_of (e : entry) : Z := e.1.2.
Definition req_size_of (e : entry) : Z := e.2.

(** [a < b] on two such tuples: the first position where they differ
    decides. *)
Definition entry_lt (a b : entry) : bool :=
  if negb (priority_of a =? priority_of b) then priority_of a <? priority_of b
  else if negb (Qeq_bool (timestamp_of a) (timestamp_of b))
       then Qltb (timestamp_of a) (timestamp_of b)
  else if negb (req_id_of a =? req_id_of b) then req_id_of a <? req_id_of b
  else req_size_of a <? req_size_of b.

(** [queue.PriorityQueue] is a binary heap whose [get()] returns a least
    tuple.  It is represented by the list of its tuples in the order in which
    [get()] returns them; [pq_put] is [put()], and [get()] takes the head. *)
Fixpoint pq_put (e : entry) (q : list entry) : list entry :=
  match q with
  | [] => [e]
  | x :: q' => if entry_lt e x then e :: x :: q' else x :: pq_put e q'
  end.

Record state : Type := {
  servers : dict server;
  request_queue : list entry;
  request_timeout : Q;
  request_counter : Z;
  completed_requests : gset Z
}.

(** [__init__(self, servers, request_timeout, health_check_interval)]; the
    interval only paces the health-check thread. *)
Definition init (pool : dict Z) (request_timeout : Q) : state :=
  {| servers :=
       (fun '(name, cap) =>
          (name, {| capacity := cap; active_requests := ∅; current_load := 0;
                    status := healthy |})) <$> pool;
     request_queue := [];
     request_timeout := request_timeout;
     request_counter := 0;
     completed_requests := ∅ |}.

Definition set_servers (d : dict server) (self : state) : state :=
  {| servers := d; request_queue := request_queue self;
     request_timeout := request_timeout self;
     request_counter := request_counter self;
     completed_requests := completed_requests self |}.

Definition set_request_queue (q : list entry) (self : state) : state :=
  {| servers := servers self; request_queue := q;
     request_timeout := request_timeout self;
     request_counter := request_counter self;
     completed_requests := completed_requests self |}.

Definition set_request_counter (n : Z) (self : state) : state :=
  {| servers := servers self; request_queue := request_queue self;
     request_timeout := request_timeout self;
     request_counter := n;
     completed_requests := completed_requests self |}.

Definition set_completed_requests (c : gset Z) (self : state) : state :=
  {| servers := servers self; request_queue := request_queue self;
     request_timeout := request_timeout self;
     request_counter := request_counter self;
     completed_requests := c |}.

(** The body of the loop [for server in list(self.servers.keys())] of
    [_run_health_checks]. *)
Definition remove_if_failed (server : string) : M state unit :=
  r <- random_random;;
  if Qltb r (5 # 1000) then
    self <- get;;
    _ <- dict_getitem (servers self) server;;
    put (set_servers (dict_remove (servers self) server) self)
  else ret tt.

(** One round of the loop of [_run_health_checks], between two sleeps. *)
Definition health_check_round : M state unit :=
  self <- get;;
  for_each (servers self).*1 remove_if_failed.

(** The body of the loop [for req_id in completed] of
    [_update_server_states]. *)
Definition complete_request (server_name : string) (req_id : Z) : M state unit :=
  self <- get;;
  server <- dict_getitem (servers self) server_name;;
  match active_requests server !! req_id with
  | None => raise KeyError
  | Some (_, size) =>
      let server' :=
        {| capacity := capacity server;
           active_requests := delete req_id (active_requests server);
           current_load := current_load server - size;
           status := status server |} in
      put (set_completed_requests ({[req_id]} ∪ completed_requests self)
             (set_servers (dict_update (servers self) server_name server') self))
  end.

(** The servers that can take [req_size] more. *)
Definition feasible (req_size : Z) (d : dict server) : list string :=
  (List.filter
     (fun '(_, srv) =>
        is_healthy (status srv) && (current_load srv + req_size <=? capacity srv))
     d).*1.

(** [(a, m) < (b, n)] on a pair of a float and an integer. *)
Definition key_lt (x y : Q * nat) : bool :=
  if negb (Qeq_bool x.1 y.1) then Qltb x.1 y.1 else (x.2 <? y.2)%nat.

(** The key function of [min]: resulting load ratio, then number of active
    requests. *)
Definition load_key (req_size : Z) (s : string) : M state (string * (Q * nat)) :=
  self <- get;;
  srv <- dict_getitem (servers self) s;;
  ratio <- py_truediv (current_load srv + req_size) (capacity srv);;
  ret (s, (ratio, size (active_requests srv))).

(** The value of the key function on a server whose capacity is not 0. *)
Definition load_key_of (req_size : Z) (srv : server) : Q * nat :=
  ((inject_Z (current_load srv + req_size) / inject_Z (capacity srv))%Q,
   size (active_requests srv)).

(** [min(available_servers, key=...)] for a non-empty list. *)
Definition select_server (req_size : Z) (first : string) (others : list string)
    : M state string :=
  k <- load_key req_size first;;
  ks <- map_comp (load_key req_size) others;;
  ret (py_min key_lt snd k ks).1.

(** [_assign_to_server(self, server, request_size)]; the server object is
    passed by its name. *)
Definition _assign_to_server (server_name : string) (request_size : Z)
    : M state Z :=
  processing_time <- random_uniform (1 # 10) (1 # 2);;
  now <- time_time;;
  let completion_time := (now + processing_time)%Q in
  self <- get;;
  let req_id := request_counter self in
  srv <- dict_getitem (servers self) server_name;;
  let srv' :=
    {| capacity := capacity srv;
       active_requests :=
         <[req_id := (completion_time, request_size)]> (active_requests srv);
       current_load := current_load srv + request_size;
       status := status srv |} in
  put (set_servers (dict_update (servers self) server_name srv') self);;
  ret req_id.

(** The loop [while not self.request_queue.empty()] of
    [_update_server_states].  [pending] is the content of
    [self.request_queue]; the body only takes from that queue, so the loop
    runs once per tuple of [pending]. *)
Fixpoint drain_queue (pending : list entry) (temp_queue : list entry)
    : M state (list entry) :=
  match pending with
  | [] => ret temp_queue
  | e :: rest =>
      modify (set_request_queue rest);;
      now <- time_time;;
      self <- get;;
      if Qltb (request_timeout self) (now - timestamp_of e) then
        drain_queue rest temp_queue
      else
        match feasible (req_size_of e) (servers self) with
        | [] => drain_queue rest (pq_put e temp_queue)
        | first :: others =>
            server_name <- select_server (req_size_of e) first others;;
            _assign_to_server server_name (req_size_of e);;
            drain_queue rest temp_queue
        end
  end.

(** The body of the loop [for server_name, server in self.servers.items()]
    of [_update_server_states]; the server object is reached by its name. *)
Definition reclaim_server (current_time : Q) (server_name : string)
    : M state unit :=
  self <- get;;
  srv <- dict_getitem (servers self) server_name;;
  let completed :=
    (List.filter (fun '(_, (end_time, _)) => Qle_bool end_time current_time)
       (map_to_list (active_requests srv))).*1 in
  for_each completed (complete_request server_name).

(** The body of the loop [while not temp_queue.empty()]:
    [self.request_queue.put(temp_queue.get())]. *)
Definition requeue (e : entry) : M state unit :=
  modify (fun self => set_request_queue (pq_put e (request_queue self)) self).

(** [_update_server_states(self)]: the state-update sweep. *)
Definition _update_server_states : M state unit :=
  current_time <- time_time;;
  self <- get;;
  for_each (servers self).*1 (reclaim_server current_time);;
  self <- get;;
  temp_queue <- drain_queue (request_queue self) [];;
  for_each temp_queue requeue.

(** The name [req_size] as [assign_request] reads it.  It is neither a
    parameter nor a local of that method (the parameter is [request_size]),
    and the module binds no global of that name: the read raises. *)
Definition req_size : M state Z := raise NameError.

(** What [assign_request] returns: [{'server', 'req_id'}] or
    [{'status': 'queued', 'req_id', 'queue_position'}]. *)
Inductive reply : Type :=
| Placed (server : string) (req_id : Z)
| Queued (req_id : Z) (queue_position : Z).

(** [assign_request(self, request_size, priority)] *)
Definition assign_request (request_size : Z) (priority : Z) : M state reply :=
  _update_server_states;;
  current_time <- time_time;;
  modify (fun self => set_request_counter (request_counter self + 1) self);;
  self <- get;;
  let req_id := request_counter self in
  available_servers <-
    filter_comp
      (fun '(_, srv) =>
         if is_healthy (status srv) then
           value <- req_size;;
           ret (current_load srv + value <=? capacity srv)
         else ret false)
      (servers self);;
  match available_servers.*1 with
  | first :: others =>
      server_name <- select_server request_size first others;;
      _assign_to_server server_name request_size;;
      ret (Placed server_name req_id)
  | [] =>
      modify (fun self =>
        set_request_queue
          (pq_put (priority, current_time, req_id, request_size)
             (request_queue self)) self);;
      self <- get;;
      ret (Queued req_id (Z.of_nat (length (request_queue self))))
  end.

(** The states a router goes through: construction over a dict, then calls
    of [assign_request], sweeps on demand, and rounds of the health-check
    thread, each in any world. *)
Inductive reachable : state -> Prop :=
| reachable_init (pool : dict Z) (request_timeout : Q) :
    NoDup pool.*1 -> reachable (init pool request_timeout)
| reachable_assign (self : state) (w : World) (request_size priority : Z) :
    reachable self ->
    reachable (st (assign_request request_size priority w self))
| reachable_sweep (self : state) (w : World) :
    reachable self -> reachable (st (_update_server_states w self))
| reachable_health (self : state) (w : World) :
    reachable self -> reachable (st (health_check_round w self)).

(** [later self self']: the router gets from [self] to [self'] by calls of
    [assign_request], sweeps and health-check rounds. *)
Inductive later (self : state) : state -> Prop :=
| later_now : later self self
| later_assign (self' : state) (w : World) (request_size priority : Z) :
    later self self' ->
    later self (st (assign_request request_size priority w self'))
| later_sweep (self' : state) (w : World) :
    later self self' -> later self (st (_update_server_states w self'))
| later_health (self' : state) (w : World) :
    later self self' -> later self (st (health_check_round w self')).

(** [a <= b] on two tuples of the queue. *)
Definition entry_le (a b : entry) : Prop := entry_lt b a = false.

(** The lexicographic order on the four positions of a tuple, strict and
    large. *)
Definition lex_lt (a b : entry) : Prop :=
  priority_of a < priority_of b \/
  (priority_of a = priority_of b /\
   ((timestamp_of a < timestamp_of b)%Q \/
    ((timestamp_of a == timestamp_of b)%Q /\
     (req_id_of a < req_id_of b \/
      (req_id_of a = req_id_of b /\ req_size_of a < req_size_of b))))).

Definition lex_le (a b : entry) : Prop :=
  priority_of a < priority_of b \/
  (priority_of a = priority_of b /\
   ((timestamp_of a < timestamp_of b)%Q \/
    ((timestamp_of a == timestamp_of b)%Q /\
     (req_id_of a < req_id_of b \/
      (req_id_of a = req_id_of b /\ req_size_of a <= req_size_of b))))).

(** Ascending [(priority, arrival time)], and issue order ([req_id]) between
    two requests that agree on both. *)
Definition fifo_le (a b : entry) : Prop :=
  priority_of a < priority_of b \/
  (priority_of a = priority_of b /\
   ((timestamp_of a < timestamp_of b)%Q \/
    ((timestamp_of a == timestamp_of b)%Q /\ req_id_of a <= req_id_of b))).

(** The sum of the sizes of a server's active requests. *)
Definition total_size (active : gmap Z (Q * Z)) : Z :=
  map_fold (fun _ r acc => r.2 + acc) 0 active.

(** The request ids waiting in the queue. *)
Definition pending_ids (self : state) : list Z :=
  req_id_of <$> request_queue self.

(** A server that holds no request. *)
Definition idle (srv : server) : Prop :=
  active_requests srv = ∅ /\ current_load srv = 0 /\ status srv = healthy.

(** What holds of every reachable state.  A request is queued only by a call
    that found no server in the registry, servers are never added, and a
    call that finds a server raises before it places anything: so no server
    ever holds a request, and the queue is empty while a server exists. *)
Definition quiescent (self : state) : Prop :=
  (forall name srv, (name, srv) ∈ servers self -> idle srv) /\
  (request_queue self <> [] -> servers self = []) /\
  completed_requests self = ∅ /\
  StronglySorted entry_le (request_queue self).

(** The tuples of [pending] that the drain loop keeps when no server exists:
    the [k]-th reading of the clock is taken for the head. *)
Fixpoint unexpired (clock : nat -> Q) (k : nat) (timeout : Q)
    (pending : list entry) : list entry :=
  match pending with
  | [] => []
  | e :: rest =>
      if Qltb timeout (clock k - timestamp_of e)
      then unexpired clock (S k) timeout rest
      else e :: unexpired clock (S k) timeout rest
  end.

(** The servers that a health-check round leaves: the server visited at the
    [k]-th draw goes when the draw is below 0.005. *)
Fixpoint survivors (rng : nat -> Q) (k : nat) (d : dict server) : dict server :=
  match d with
  | [] => []
  | (name, srv) :: d' =>
      if Qltb (rng k) (5 # 1000)
      then survivors rng (S k) d'
      else (name, srv) :: survivors rng (S k) d'
  end.

(** What is configured at construction: the names, capacities and statuses
    in dict order, and the timeout. *)
Definition config (self : state) : list (string * Z * status_t) * Q :=
  ((fun '(name, srv) => (name, capacity srv, status srv)) <$> servers self,
   request_timeout self).

(** The size recorded under [req_id], 0 when there is none. *)
Definition size_under (req_id : Z) (active : gmap Z (Q * Z)) : Z :=
  match active !! req_id with
  | Some (_, size) => size
  | None => 0
  end.

(** What the placement of one tuple keeps: the queue and the timeout. *)
Definition queue_and_timeout (q : list entry) (timeout : Q) (s : state) : Prop :=
  request_queue s = q /\ request_timeout s = timeout.

(** The ids that the reclaim pass completes on one server: the list
    [completed] of [_update_server_states]. *)
Definition completed_ids (current_time : Q) (srv : server) : list Z :=
  (List.filter (fun '(_, (end_time, _)) => Qle_bool end_time current_time)
     (map_to_list (active_requests srv))).*1.

(** A server without the requests [ids]: they leave the active requests, and
    the load goes down by their sizes. *)
Definition without (ids : list Z) (srv : server) : server :=
  let kept := filter (fun kv => kv.1 ∉ ids) (active_requests srv) in
  {| capacity := capacity srv;
     active_requests := kept;
     current_load :=
       current_load srv - (total_size (active_requests srv) - total_size kept);
     status := status srv |}.

(** A server after the reclaim pass read the clock at [current_time]. *)
Definition swept_server (current_time : Q) (entry : string * server)
    : string * server :=
  (entry.1, without (completed_ids current_time entry.2) entry.2).

(** The ids that the reclaim pass completes on the servers of [d]. *)
Definition elapsed_ids (current_time : Q) (d : dict server) : gset Z :=
  ⋃ ((fun entry : string * server =>
        list_to_set (completed_ids current_time entry.2)) <$> d).

(** A request id that was issued before the current one and is on file
    nowhere: it is below the counter, in no server's active requests and not
    in [completed_requests]. *)
Definition unfiled (req_id : Z) (self : state) : Prop :=
  req_id < request_counter self /\
  (forall name srv, (name, srv) ∈ servers self ->
     active_requests srv !! req_id = None) /\
  req_id ∉ completed_requests self.

End LoadAwareBalancer.

(** ** class LoadBalancer: the dispatch facade *)

Module LoadBalancer.

(** [self.algorithm]: an instance of one of the three classes. *)
Inductive algorithm : Type :=
| RoundRobin (a : RoundRobinBalancer.state)
| LeastConnections (a : LeastConnectionsBalancer.state)
| LoadAware (a : LoadAwareBalancer.state).

(** What the router's [assign_request] gave back: a name or [None], or the
    Load-Aware router's dict. *)
Inductive served : Type :=
| Server (name : option string)
| Ticket (r : LoadAwareBalancer.reply).

Definition map_res {S T A B} (f : S -> T) (g : A -> B) (r : Res S A) : Res T B :=
  {| out := match out r with Return a => Return (g a) | Raise e => Raise e end;
     st := f (st r);
     world := world r |}.

(** [self.algorithm.assign_request(request_size)] *)
Definition call_assign_request (request_size : Z) : M algorithm served :=
  fun w alg =>
    match alg with
    | RoundRobin a =>
        map_res RoundRobin Server
          (RoundRobinBalancer.assign_request request_size w a)
    | LeastConnections a =>
        map_res LeastConnections Server
          (LeastConnectionsBalancer.assign_request request_size w a)
    | LoadAware a =>
        map_res LoadAware Ticket
          (LoadAwareBalancer.assign_request request_size 1 w a)
    end.

(** [if isinstance(self.algorithm, LeastConnectionsBalancer) and server:
    self.algorithm.release_connection(server, request_size)] *)
Definition release_hook (server : served) (request_size : Z) : M algorithm unit :=
  fun w alg =>
    match alg, server with
    | LeastConnections a, Server (Some name) =>
        if truthy (Some name) then
          map_res LeastConnections id
            (LeastConnectionsBalancer.release_connection name request_size w a)
        else ret tt w alg
    | _, _ => ret tt w alg
    end.

(** [assign_request(self, request_size)]; [time.sleep] is an advance of the
    clock between two readings. *)
Definition assign_request (request_size : Z) : M algorithm (served * Q) :=
  start_time <- time_time;;
  server <- call_assign_request request_size;;
  processing_time <- random_uniform (1 # 100) (1 # 10);;
  release_hook server request_size;;
  end_time <- time_time;;
  ret (server, (end_time - start_time)%Q).

End LoadBalancer.

(** ** Sample inputs *)

(** The pool of the end-to-end example of the specification. *)
Definition pool_ABC : dict Z := [("A", 100); ("B", 150); ("C", 400)].

(** The pool of the script at the end of the source file. *)
Definition pool_web : dict Z :=
  [("web-01", 100); ("web-02", 150); ("web-03", 400)].

(** A world whose clock stands still at 0 and whose generator draws 0. *)
Definition still_world : World :=
  {| clock := fun _ => 0%Q; rng := fun _ => 0%Q; ticks := 0; draws := 0 |}.

(** A world whose clock advances by 1 at each reading: the [k]-th reading
    is [k]. *)
Definition ticking_world : World :=
  {| clock := fun k => inject_Z (Z.of_nat k); rng := fun _ => 0%Q;
     ticks := 0; draws := 0 |}.

(** A world whose clock stands at 1000. *)
Definition far_world : World :=
  {| clock := fun _ => 1000%Q; rng := fun _ => 0%Q; ticks := 0; draws := 0 |}.

(** Two servers, one of them loaded, and two waiting requests: the first
    (size 500) fits no server, the second (size 5) fits both. *)
Definition two_waiting : LoadAwareBalancer.state :=
  {| LoadAwareBalancer.servers :=
       [("A", {| LoadAwareBalancer.capacity := 100;
                 LoadAwareBalancer.active_requests := {[ 7 := (100%Q, 10) ]};
                 LoadAwareBalancer.current_load := 10;
                 LoadAwareBalancer.status := LoadAwareBalancer.healthy |});
        ("B", {| LoadAwareBalancer.capacity := 100;
                 LoadAwareBalancer.active_requests := ∅;
                 LoadAwareBalancer.current_load := 0;
                 LoadAwareBalancer.status := LoadAwareBalancer.healthy |})];
     LoadAwareBalancer.request_queue := [(1, 0%Q, 3, 500); (2, 0%Q, 4, 5)];
     LoadAwareBalancer.request_timeout := 5;
     LoadAwareBalancer.request_counter := 8;
     LoadAwareBalancer.completed_requests := ∅ |}.

(** A state that holds a placed request (id 7 on [A]) and a queued one
    (id 3), with the counter at 7.  No sequence of calls reaches it. *)
Definition placed_and_queued : LoadAwareBalancer.state :=
  {| LoadAwareBalancer.servers :=
       [("A", {| LoadAwareBalancer.capacity := 100;
                 LoadAwareBalancer.active_requests := {[ 7 := (100%Q, 10) ]};
                 LoadAwareBalancer.current_load := 10;
                 LoadAwareBalancer.status := LoadAwareBalancer.healthy |});
        ("B", {| LoadAwareBalancer.capacity := 100;
                 LoadAwareBalancer.active_requests := ∅;
                 LoadAwareBalancer.current_load := 0;
                 LoadAwareBalancer.status := LoadAwareBalancer.healthy |})];
     LoadAwareBalancer.request_queue := [(1, 0%Q, 3, 5)];
     LoadAwareBalancer.request_timeout := 5;
     LoadAwareBalancer.request_counter := 7;
     LoadAwareBalancer.completed_requests := ∅ |}.

(** A world whose clock stands at 1. *)
Definition settled_world : World :=
  {| clock := fun _ => 1%Q; rng := fun _ => 0%Q; ticks := 0; draws := 0 |}.

(** Two servers of capacity 100, each filled by one request (ids 1 and 2,
    due at time 3/10), and four requests that arrived at time 0 and wait
    under the ids 3, 4, 5 and 6, with the counter at 6: three of size 5, one
    of size 500 that fits no server.  Every load is the sum of the active
    sizes and every id is in one place.  It is the state of a router over
    [{A: 100, B: 100}] after six calls, of sizes 100, 100, 5, 5, 5 and 500,
    that place what fits and queue the rest.  No sequence of calls reaches
    it, since [assign_request] raises beside a server: it is set up through
    the attributes of the router. *)
Definition backlog : LoadAwareBalancer.state :=
  {| LoadAwareBalancer.servers :=
       [("A", {| LoadAwareBalancer.capacity := 100;
                 LoadAwareBalancer.active_requests := {[ 1 := ((3 # 10)%Q, 100) ]};
                 LoadAwareBalancer.current_load := 100;
                 LoadAwareBalancer.status := LoadAwareBalancer.healthy |});
        ("B", {| LoadAwareBalancer.capacity := 100;
                 LoadAwareBalancer.active_requests := {[ 2 := ((3 # 10)%Q, 100) ]};
                 LoadAwareBalancer.current_load := 100;
                 LoadAwareBalancer.status := LoadAwareBalancer.healthy |})];
     LoadAwareBalancer.request_queue :=
       [(1, 0%Q, 3, 5); (1, 0%Q, 4, 5); (1, 0%Q, 5, 5); (1, 0%Q, 6, 500)];
     LoadAwareBalancer.request_timeout := 5;
     LoadAwareBalancer.request_counter := 6;
     LoadAwareBalancer.completed_requests := ∅ |}.

(** * Properties *)

(** ** Python values *)

Section PythonValues.

Context {V : Type}.
Implicit Types (d : dict V) (k : string) (v : V).

Lemma dict_lookup_In d k v : dict_lookup d k = Some v -> (k, v) ∈ d.
Proof.
  induction d as [|[k' v'] d IH]; simpl; [done|].
  destruct (String.eqb_spec k' k) as [->|_].
  - intros [= ->]. apply list_elem_of_here.
  - intros H. apply list_elem_of_further, IH, H.
Qed.

Lemma dict_lookup_key d k : k ∈ d.*1 -> is_Some (dict_lookup d k).
Proof.
  induction d as [|[k' v'] d IH]; simpl.
  - intros H. by apply not_elem_of_nil in H.
  - intros H. destruct (String.eqb_spec k' k) as [->|Hne]; [by eexists|].
    apply elem_of_cons in H as [->|H]; [done|]. by apply IH.
Qed.

Lemma dict_lookup_NoDup d k v :
  NoDup d.*1 -> (k, v) ∈ d -> dict_lookup d k = Some v.
Proof.
  induction d as [|[k' v'] d IH]; simpl.
  - intros _ H. by apply not_elem_of_nil in H.
  - rewrite NoDup_cons. intros [Hk Hd] H.
    apply elem_of_cons in H as [[= -> ->]|H].
    + by rewrite String.eqb_refl.
    + destruct (String.eqb_spec k' k) as [->|_]; [|by apply IH].
      exfalso. apply Hk. apply list_elem_of_fmap. by exists (k, v).
Qed.

Lemma dict_update_keys d k v : (dict_update d k v).*1 = d.*1.
Proof.
  induction d as [|[k' v'] d IH]; [done|].
  cbn [dict_update]. destruct (String.eqb k' k); [done|].
  rewrite !fmap_cons. by f_equal.
Qed.

(** After [d[k] = v], every entry is an old one or the new one. *)
Lemma dict_update_In d k v k1 v1 :
  (k1, v1) ∈ dict_update d k v -> (k1, v1) ∈ d \/ (k1 = k /\ v1 = v).
Proof.
  induction d as [|[k' v'] d IH]; simpl.
  - intros H. by apply not_elem_of_nil in H.
  - destruct (String.eqb_spec k' k) as [->|_]; intros H.
    + apply elem_of_cons in H as [[= -> ->]|H]; [by right|].
      left. by apply list_elem_of_further.
    + apply elem_of_cons in H as [[= -> ->]|H]; [left; apply list_elem_of_here|].
      destruct (IH H) as [?|?]; [left|by right]. by apply list_elem_of_further.
Qed.

Lemma dict_remove_In d k k1 v1 : (k1, v1) ∈ dict_remove d k -> (k1, v1) ∈ d.
Proof.
  induction d as [|[k' v'] d IH]; simpl; [done|].
  destruct (String.eqb k' k); intros H.
  - by apply list_elem_of_further.
  - apply elem_of_cons in H as [->|H]; [apply list_elem_of_here|].
    by apply list_elem_of_further, IH.
Qed.

End PythonValues.

(** [min] returns one of its arguments, and no argument has a strictly
    smaller key when [lt] is the strict part of a total preorder. *)
Lemma py_min_In {A K} (lt : K -> K -> bool) (key : A -> K) best rest :
  py_min lt key best rest ∈ best :: rest.
Proof.
  revert best. induction rest as [|x rest IH]; intros best; simpl.
  - apply list_elem_of_here.
  - specialize (IH (if lt (key x) (key best) then x else best)).
    apply elem_of_cons in IH as [->|IH].
    + destruct (lt (key x) (key best)).
      * apply list_elem_of_further, list_elem_of_here.
      * apply list_elem_of_here.
    + by do 2 apply list_elem_of_further.
Qed.

Lemma py_min_least {A K} (lt : K -> K -> bool) (key : A -> K) best rest :
  (forall a b c, lt a b = false -> lt b c = false -> lt a c = false) ->
  (forall a b, lt a b = true -> lt b a = false) ->
  forall x, x ∈ best :: rest ->
    lt (key x) (key (py_min lt key best rest)) = false.
Proof.
  intros Htrans Hasym. revert best.
  induction rest as [|y rest IH]; intros best x Hx; simpl.
  - apply list_elem_of_singleton in Hx as ->.
    destruct (lt (key best) (key best)) eqn:E; [|done]. by rewrite (Hasym _ _ E) in E.
  - set (b := if lt (key y) (key best) then y else best).
    assert (Hb : lt (key best) (key b) = false /\ lt (key y) (key b) = false).
    { subst b. destruct (lt (key y) (key best)) eqn:E.
      - split; [by apply Hasym|].
        destruct (lt (key y) (key y)) eqn:E'; [|done]. by rewrite (Hasym _ _ E') in E'.
      - split; [|done].
        destruct (lt (key best) (key best)) eqn:E'; [|done].
        by rewrite (Hasym _ _ E') in E'. }
    destruct Hb as [Hb1 Hb2].
    assert (Hmin : lt (key b) (key (py_min lt key b rest)) = false).
    { apply IH, list_elem_of_here. }
    apply elem_of_cons in Hx as [->|Hx].
    + by apply (Htrans _ (key b)).
    + apply elem_of_cons in Hx as [->|Hx].
      * by apply (Htrans _ (key b)).
      * by apply IH, list_elem_of_further.
Qed.

(** ** Round-Robin *)

Section RoundRobin.

Import RoundRobinBalancer.

(** A call on a state whose index is a position of the list. *)
Lemma rr_assign_request_run (self : state) (w : World) (request_size : Z)
    (server : string) (cap : Z) :
  0 <= index self ->
  servers self !! Z.to_nat (index self) = Some server ->
  dict_lookup (capacities self) server = Some cap ->
  assign_request request_size w self =
    {| out := Return (if request_size >? cap then None else Some server);
       st := set_index ((index self + 1) mod Z.of_nat (length (servers self))) self;
       world := w |}.
Proof.
  intros Hi Hs Hc.
  assert (Hlt : index self < Z.of_nat (length (servers self))).
  { apply lookup_lt_Some in Hs. lia. }
  unfold assign_request, bind, get, list_getitem, py_mod, dict_getitem, modify.
  cbn [out st world].
  destruct (Z.ltb_spec (index self) 0) as [?|_]; [lia|].
  destruct (Z.leb_spec 0 (index self)) as [_|?]; [|lia].
  destruct (Z.ltb_spec (index self) (Z.of_nat (length (servers self)))) as [_|?];
    [|lia].
  cbn [andb]. rewrite Hs. unfold ret at 1. cbn [out st world].
  destruct (Z.eqb_spec (Z.of_nat (length (servers self))) 0) as [?|_]; [lia|].
  unfold ret at 1. cbn [out st world]. rewrite Hc.
  unfold ret at 1. cbn [out st world].
  by destruct (request_size >? cap).
Qed.

(** A call on an empty pool raises and leaves the state as it was. *)
Lemma rr_assign_request_empty (self : state) (w : World) (request_size : Z) :
  servers self = [] -> 0 <= index self ->
  st (assign_request request_size w self) = self.
Proof.
  intros Hs Hi.
  unfold assign_request, bind, get, list_getitem. cbn [out st world].
  rewrite Hs. cbn [length].
  destruct (Z.ltb_spec (index self) 0) as [?|_]; [lia|].
  destruct (Z.leb_spec 0 (index self)) as [_|?]; [|lia].
  destruct (Z.ltb_spec (index self) (Z.of_nat 0)) as [?|_]; [lia|].
  done.
Qed.

Lemma rr_reachable_well_formed (self : state) :
  reachable self -> well_formed self.
Proof.
  induction 1 as [pool _|self w request_size _ (Hs & Hi & Hlt)].
  - unfold well_formed, init; cbn. split; [done|]. split; [done|].
    destruct pool; [done|]. intros _. rewrite length_fmap. cbn. lia.
  - destruct (decide (servers self = [])) as [E|Hne].
    + rewrite rr_assign_request_empty by done. exact (conj Hs (conj Hi Hlt)).
    + specialize (Hlt Hne).
      destruct (lookup_lt_is_Some_2 (servers self) (Z.to_nat (index self)))
        as [server Hsrv]; [lia|].
      assert (is_Some (dict_lookup (capacities self) server)) as [cap Hcap].
      { apply dict_lookup_key. rewrite <- Hs.
        by apply list_elem_of_lookup_2 in Hsrv. }
      rewrite (rr_assign_request_run self w request_size server cap) by done.
      unfold well_formed, set_index; cbn [servers capacities index st].
      split; [done|].
      pose proof (Z.mod_pos_bound (index self + 1)
                    (Z.of_nat (length (servers self)))) as Hm.
      split; [lia|]. intros _. lia.
Qed.

(** C4.  On every reachable state of a router with at least one server,
    [assign_request] picks the server at the current index, moves the index
    to the next position modulo the number of servers whatever the outcome,
    and returns the server's name when the request size is at most its
    configured capacity and [None] otherwise; the state has no load field and
    the names and capacities stay as they were.  With the pool
    [{A:100, B:150, C:400}], a request of size 50 goes to [A], a following one
    of size 200 is rejected at [B], and the index then points at [C]. *)
Theorem round_robin_assign_request :
  (forall (self : state) (w : World) (request_size : Z),
     reachable self -> servers self <> [] ->
     exists (server : string) (cap : Z),
       0 <= index self /\
       servers self !! Z.to_nat (index self) = Some server /\
       dict_lookup (capacities self) server = Some cap /\
       assign_request request_size w self =
         {| out := Return (if request_size >? cap then None else Some server);
            st := {| servers := servers self;
                     capacities := capacities self;
                     index := (index self + 1)
                                mod Z.of_nat (length (servers self)) |};
            world := w |}) /\
  (forall w : World,
     let r1 := assign_request 50 w (init pool_ABC) in
     let r2 := assign_request 200 (world r1) (st r1) in
     out r1 = Return (Some "A") /\ index (st r1) = 1 /\
     out r2 = Return None /\ index (st r2) = 2 /\
     servers (st r2) !! Z.to_nat (index (st r2)) = Some "C").
Proof.
  split.
  - intros self w request_size Hr Hne.
    destruct (rr_reachable_well_formed self Hr) as (Hs & Hi & Hlt).
    specialize (Hlt Hne).
    destruct (lookup_lt_is_Some_2 (servers self) (Z.to_nat (index self)))
      as [server Hsrv]; [lia|].
    assert (is_Some (dict_lookup (capacities self) server)) as [cap Hcap].
    { apply dict_lookup_key. rewrite <- Hs.
      by apply list_elem_of_lookup_2 in Hsrv. }
    exists server, cap. repeat (split; [done|]).
    by apply rr_assign_request_run.
  - intros w. cbv zeta. repeat split.
Qed.

(** The general part of C4 at the pool [{A:100, B:150, C:400}] after one
    call. *)
Lemma round_robin_assign_request_witness :
  exists (server : string) (cap : Z),
    0 <= 1 /\
    ["A"; "B"; "C"] !! 1%nat = Some server /\
    dict_lookup pool_ABC server = Some cap /\
    assign_request 200 still_world
      {| servers := ["A"; "B"; "C"]; capacities := pool_ABC; index := 1 |} =
      {| out := Return (if 200 >? cap then None else Some server);
         st := {| servers := ["A"; "B"; "C"]; capacities := pool_ABC;
                  index := 2 |};
         world := still_world |}.
Proof.
  apply (proj1 round_robin_assign_request
           {| servers := ["A"; "B"; "C"]; capacities := pool_ABC; index := 1 |}).
  - apply (reachable_assign (init pool_ABC) still_world 50).
    apply reachable_init. compute_done.
  - discriminate.
Defined.

End RoundRobin.

(** ** Least-Connections *)

Section LeastConnections.

Import LeastConnectionsBalancer.

Lemma total_size_app (l1 l2 : list (Q * Z)) :
  total_size (l1 ++ l2) = total_size l1 + total_size l2.
Proof.
  induction l1 as [|r l1 IH]; cbn; [done|].
  fold (total_size (l1 ++ l2)) (total_size l1). lia.
Qed.

(** The requests kept and the requests completed split the active list. *)
Lemma filter_split (p : Q * Z -> bool) (l : list (Q * Z)) :
  length l = (length (List.filter p l)
              + length (List.filter (fun r => negb (p r)) l))%nat /\
  total_size l = total_size (List.filter p l)
                 + total_size (List.filter (fun r => negb (p r)) l).
Proof.
  induction l as [|r l [IH1 IH2]]; cbn; [done|].
  fold (total_size l).
  destruct (p r); cbn;
    fold (total_size (List.filter p l))
         (total_size (List.filter (fun r => negb (p r)) l)); lia.
Qed.

Lemma complete_all (data : server) (completed : list (Q * Z)) :
  let data' := foldl complete_one data completed in
  connections data' = connections data - Z.of_nat (length completed) /\
  current_load data' = current_load data - total_size completed /\
  capacity data' = capacity data /\
  active_requests data' = active_requests data.
Proof.
  revert data. induction completed as [|r completed IH]; intros data; cbn.
  - repeat split; lia.
  - destruct (IH (complete_one data r)) as (H1 & H2 & H3 & H4).
    cbn in H1, H2, H3, H4. fold (total_size completed).
    repeat split; [lia|lia|done|done].
Qed.

Lemma reclaim_balanced (current_time : Q) (data : server) :
  balanced data -> balanced (reclaim current_time data).
Proof.
  intros [Hc Hl]. unfold reclaim.
  destruct (filter_split (fun r => Qle_bool r.1 current_time)
              (active_requests data)) as [Hlen Hsum].
  destruct (List.filter (fun r => Qle_bool r.1 current_time)
              (active_requests data)) as [|r0 completed] eqn:E; [done|].
  destruct (complete_all data (r0 :: completed)) as (H1 & H2 & _ & _).
  unfold balanced, Qltb; cbn [connections current_load active_requests].
  cbv zeta in H1, H2. rewrite H1, H2. lia.
Qed.

Lemma accept_balanced (request_size : Z) (completion_time : Q) (data : server) :
  balanced data -> balanced (accept request_size completion_time data).
Proof.
  intros [Hc Hl]. unfold balanced, accept; cbn [connections current_load active_requests].
  rewrite length_app, total_size_app. cbn. lia.
Qed.

Lemma process_completed_requests_run (w : World) (self : state) :
  _process_completed_requests w self =
    {| out := Return tt; st := {| servers := reclaimed w self |}; world := tick w |}.
Proof. reflexivity. Qed.

Lemma reclaimed_keys (w : World) (self : state) :
  (reclaimed w self).*1 = (servers self).*1.
Proof.
  unfold reclaimed. rewrite <- list_fmap_compose.
  apply list_fmap_ext. by intros _ [name data] _.
Qed.

(** The two ways a call ends. *)
Lemma lc_assign_request_run (w : World) (self : state) (request_size : Z) :
  let eligible_servers :=
    List.filter
      (fun '(_, data) => request_size <=? capacity data - current_load data)
      (reclaimed w self) in
  match eligible_servers with
  | [] =>
      assign_request request_size w self =
        {| out := Return None; st := {| servers := reclaimed w self |};
           world := tick w |}
  | first :: others =>
      let chosen := (py_min Z.ltb (fun sd => connections sd.2) first others).1 in
      exists (data : server) (completion_time : Q),
        dict_lookup (reclaimed w self) chosen = Some data /\
        assign_request request_size w self =
          {| out := Return (Some chosen);
             st := {| servers := dict_update (reclaimed w self) chosen
                                   (accept request_size completion_time data) |};
             world := tick (draw (tick w)) |}
  end.
Proof.
  cbv zeta. unfold assign_request, bind.
  rewrite process_completed_requests_run. cbn [out st world get servers].
  destruct (List.filter _ (reclaimed w self)) as [|first others] eqn:E; [done|].
  set (chosen := py_min Z.ltb (fun sd => connections sd.2) first others).
  assert (Hin : chosen ∈ reclaimed w self).
  { assert (H : chosen ∈ first :: others) by apply py_min_In.
    rewrite <- E in H. apply list_elem_of_In, filter_In in H as [H _].
    by apply list_elem_of_In. }
  destruct (dict_lookup_key (reclaimed w self) chosen.1) as [data Hdata].
  { apply list_elem_of_fmap. by exists chosen. }
  exists data. eexists. split; [done|].
  unfold dict_getitem. rewrite Hdata. reflexivity.
Qed.

(** Every reachable state has unique names and balanced servers. *)
Lemma lc_reachable_balanced (self : state) :
  reachable self ->
  NoDup (servers self).*1 /\
  forall name data, (name, data) ∈ servers self -> balanced data.
Proof.
  induction 1 as [pool Hnd|self w request_size _ [Hnd IH]|self w server size _ IH].
  - split.
    + unfold init; cbn [servers]. rewrite <- list_fmap_compose.
      erewrite list_fmap_ext; [exact Hnd|]. by intros _ [name cap] _.
    + intros name data Hin. unfold init in Hin; cbn [servers] in Hin.
      apply list_elem_of_fmap in Hin as [[name' cap] [[= -> ->] _]]. done.
  - assert (Hrec : forall name data, (name, data) ∈ reclaimed w self -> balanced data).
    { intros name data Hin.
      apply list_elem_of_fmap in Hin as [[name' data'] [[= -> ->] Hin]].
      apply reclaim_balanced. by apply (IH name'). }
    pose proof (lc_assign_request_run w self request_size) as Hrun.
    cbv zeta in Hrun.
    destruct (List.filter _ (reclaimed w self)) as [|first others].
    + rewrite Hrun. cbn [st servers]. by rewrite reclaimed_keys.
    + destruct Hrun as (data & completion_time & Hdata & ->). cbn [st servers].
      split; [by rewrite dict_update_keys, reclaimed_keys|].
      intros name data' Hin. apply dict_update_In in Hin as [Hin|[_ ->]].
      * by apply (Hrec name).
      * apply accept_balanced. apply dict_lookup_In in Hdata. by eapply Hrec.
  - exact IH.
Qed.

End LeastConnections.

Section LeastConnectionsClaims.

Import LeastConnectionsBalancer.

(** C5.  When [assign_request] returns a server, the request size was at
    most that server's capacity minus its current load in the state left by
    the reclaim pass, which is the state the decision reads; when no server
    of that state has room, the call returns [None].  The call always
    returns. *)
Theorem least_connections_fits_free_capacity
    (self : state) (w : World) (request_size : Z) :
  reachable self ->
  let decision := servers (st (_process_completed_requests w self)) in
  let r := assign_request request_size w self in
  (forall name, out r = Return (Some name) ->
     exists data, dict_lookup decision name = Some data /\
                  request_size <= capacity data - current_load data) /\
  ((forall name data, (name, data) ∈ decision ->
      capacity data - current_load data < request_size) ->
   out r = Return None) /\
  (exists answer, out r = Return answer).
Proof.
  intros Hr. cbv zeta.
  rewrite process_completed_requests_run. cbn [st servers].
  destruct (lc_reachable_balanced self Hr) as [Hnd _].
  pose proof (lc_assign_request_run w self request_size) as Hrun.
  cbv zeta in Hrun.
  destruct (List.filter _ (reclaimed w self)) as [|first others] eqn:E.
  - rewrite Hrun. cbn [out]. split; [done|]. split; [done|]. by eexists.
  - destruct Hrun as (data & completion_time & Hdata & ->). cbn [out].
    set (chosen := py_min Z.ltb (fun sd => connections sd.2) first others) in *.
    assert (Hin : chosen ∈ first :: others) by apply py_min_In.
    rewrite <- E in Hin. apply list_elem_of_In, filter_In in Hin as [Hin Hfit].
    apply list_elem_of_In in Hin. destruct chosen as [name0 data0] eqn:Ec.
    cbn [fst] in *.
    assert (data = data0) as ->.
    { rewrite (dict_lookup_NoDup _ name0 data0) in Hdata.
      - by injection Hdata.
      - by rewrite reclaimed_keys.
      - done. }
    split; [|split].
    + intros name [= <-]. exists data0. split; [done|]. lia.
    + intros Hnone. specialize (Hnone _ _ Hin). lia.
    + by eexists.
Qed.

(** C5 on the fresh pool of the script, for a request of size 120. *)
Lemma least_connections_fits_free_capacity_witness :
  let decision := servers (st (_process_completed_requests still_world (init pool_web))) in
  let r := assign_request 120 still_world (init pool_web) in
  (forall name, out r = Return (Some name) ->
     exists data, dict_lookup decision name = Some data /\
                  120 <= capacity data - current_load data) /\
  ((forall name data, (name, data) ∈ decision ->
      capacity data - current_load data < 120) ->
   out r = Return None) /\
  (exists answer, out r = Return answer).
Proof.
  apply (least_connections_fits_free_capacity (init pool_web) still_world 120).
  apply reachable_init. compute_done.
Defined.

(** C10.  After every [assign_request], and already after its reclaim pass,
    the connection counter of every server is the length of its list of
    active requests. *)
Theorem least_connections_counts_active
    (self : state) (w : World) (request_size : Z) :
  reachable self ->
  (forall name data,
     (name, data) ∈ servers (st (assign_request request_size w self)) ->
     connections data = Z.of_nat (length (active_requests data))) /\
  (forall name data,
     (name, data) ∈ servers (st (_process_completed_requests w self)) ->
     connections data = Z.of_nat (length (active_requests data))).
Proof.
  intros Hr. split.
  - intros name data Hin.
    pose proof (reachable_assign self w request_size Hr) as Hr'.
    apply lc_reachable_balanced in Hr' as [_ Hb]. by apply (Hb name).
  - intros name data Hin. rewrite process_completed_requests_run in Hin.
    cbn [st servers] in Hin.
    apply list_elem_of_fmap in Hin as [[name' data'] [[= -> ->] Hin]].
    apply reclaim_balanced. apply lc_reachable_balanced in Hr as [_ Hb].
    by apply (Hb name').
Qed.

(** C10 after two calls on the pool of the script. *)
Lemma least_connections_counts_active_witness :
  (forall name data,
     (name, data) ∈ servers (st (assign_request 90 still_world
                                   (st (assign_request 90 still_world (init pool_web))))) ->
     connections data = Z.of_nat (length (active_requests data))) /\
  (forall name data,
     (name, data) ∈ servers (st (_process_completed_requests still_world
                                   (st (assign_request 90 still_world (init pool_web))))) ->
     connections data = Z.of_nat (length (active_requests data))).
Proof.
  apply (least_connections_counts_active
           (st (assign_request 90 still_world (init pool_web))) still_world 90).
  apply reachable_assign, reachable_init. compute_done.
Defined.

(** C9.  [release_connection] returns without touching the router: the
    state and the world are those it was called in.  Hence a call through
    the facade leaves a Least-Connections router in the state in which the
    router's own [assign_request] leaves it, with the same answer. *)
Theorem release_connection_is_noop :
  (forall (self : state) (w : World) (server : string) (request_size : Z),
     release_connection server request_size w self =
       {| out := Return tt; st := self; world := w |}) /\
  (forall (self : state) (w : World) (request_size : Z),
     let direct := assign_request request_size (tick w) self in
     let through := LoadBalancer.assign_request request_size w
                      (LoadBalancer.LeastConnections self) in
     st through = LoadBalancer.LeastConnections (st direct) /\
     exists answer elapsed,
       out direct = Return answer /\
       out through = Return (LoadBalancer.Server answer, elapsed)).
Proof.
  split; [done|].
  intros self w request_size. cbv zeta.
  pose proof (lc_assign_request_run (tick w) self request_size) as Hrun.
  cbv zeta in Hrun.
  unfold LoadBalancer.assign_request, bind, time_time,
    LoadBalancer.call_assign_request, LoadBalancer.map_res.
  cbn [out st world].
  destruct (List.filter _ (reclaimed (tick w) self)) as [|first others].
  - rewrite Hrun. cbn. split; [done|]. by do 2 eexists.
  - destruct Hrun as (data & completion_time & _ & ->). cbn [out st world].
    set (chosen := (py_min Z.ltb (fun sd => connections sd.2) first others).1).
    unfold random_uniform, bind, random_random, LoadBalancer.release_hook.
    cbn [out st world]. unfold ret at 1. cbn [out st world].
    destruct (truthy (Some chosen)); cbn; (split; [done|]); by do 2 eexists.
Qed.

End LeastConnectionsClaims.

(** ** Load-Aware: the order of the pending queue *)

Lemma Qltb_spec (a b : Q) : Qltb a b = true <-> (a < b)%Q.
Proof.
  unfold Qltb. rewrite negb_true_iff. split.
  - intros H. apply Qnot_le_lt. intros Hle.
    apply Qle_bool_iff in Hle. congruence.
  - intros H. destruct (Qle_bool b a) eqn:E; [|done].
    apply Qle_bool_iff in E. by apply Qlt_not_le in H.
Qed.

Lemma Qltb_false (a b : Q) : Qltb a b = false <-> (b <= a)%Q.
Proof.
  unfold Qltb. rewrite negb_false_iff. apply Qle_bool_iff.
Qed.

Lemma Qeq_bool_false (a b : Q) : Qeq_bool a b = false <-> ~ (a == b)%Q.
Proof.
  split.
  - intros H Heq. apply Qeq_bool_iff in Heq. congruence.
  - intros H. destruct (Qeq_bool a b) eqn:E; [|done].
    by apply Qeq_bool_iff in E.
Qed.

(** Booleans of a comparison, turned into the facts they decide. *)
Ltac order_facts :=
  repeat match goal with
  | H : Qltb _ _ = true |- _ => apply Qltb_spec in H
  | H : Qltb _ _ = false |- _ => apply Qltb_false in H
  | H : Qeq_bool _ _ = true |- _ => apply Qeq_bool_iff in H
  | H : Qeq_bool _ _ = false |- _ => apply Qeq_bool_false in H
  | H : (_ =? _) = true |- _ => apply Z.eqb_eq in H
  | H : (_ =? _) = false |- _ => apply Z.eqb_neq in H
  | H : (_ <? _) = true |- _ => apply Z.ltb_lt in H
  | H : (_ <? _) = false |- _ => apply Z.ltb_ge in H
  | H : (_ <? _)%nat = true |- _ => apply Nat.ltb_lt in H
  | H : (_ <? _)%nat = false |- _ => apply Nat.ltb_ge in H
  end.

Section QueueOrder.

Import LoadAwareBalancer.

Lemma entry_lt_true (a b : entry) : entry_lt a b = true <-> lex_lt a b.
Proof.
  unfold entry_lt, lex_lt.
  destruct (priority_of a =? priority_of b) eqn:Ep;
    destruct (Qeq_bool (timestamp_of a) (timestamp_of b)) eqn:Et;
    destruct (req_id_of a =? req_id_of b) eqn:Ei; cbn [negb];
    order_facts; (split; [intros H; order_facts|intros H]);
    rewrite ?Z.ltb_lt, ?Qltb_spec;
    try (pose proof (Qlt_le_dec (timestamp_of a) (timestamp_of b)));
    intuition (first [lia | lra | done]).
Qed.

Lemma entry_lt_false (a b : entry) : entry_lt a b = false <-> lex_le b a.
Proof.
  unfold entry_lt, lex_le.
  destruct (priority_of a =? priority_of b) eqn:Ep;
    destruct (Qeq_bool (timestamp_of a) (timestamp_of b)) eqn:Et;
    destruct (req_id_of a =? req_id_of b) eqn:Ei; cbn [negb];
    order_facts; (split; [intros H; order_facts|intros H]);
    rewrite ?Z.ltb_ge, ?Qltb_false;
    try (pose proof (Qlt_le_dec (timestamp_of a) (timestamp_of b)));
    try (pose proof (Qlt_le_dec (timestamp_of b) (timestamp_of a)));
    intuition (first [lia | lra | done]).
Qed.

Lemma entry_le_trans (a b c : entry) :
  entry_le a b -> entry_le b c -> entry_le a c.
Proof.
  unfold entry_le. intros Hab Hbc.
  destruct (entry_lt c a) eqn:Hca; [exfalso|done].
  apply entry_lt_false in Hab, Hbc. apply entry_lt_true in Hca.
  unfold lex_le, lex_lt in *. intuition (first [lia | lra]).
Qed.

Lemma entry_lt_le (a b : entry) : entry_lt a b = true -> entry_le a b.
Proof.
  unfold entry_le. intros Hab.
  destruct (entry_lt b a) eqn:Hba; [exfalso|done].
  apply entry_lt_true in Hab, Hba.
  unfold lex_lt in *. intuition (first [lia | lra]).
Qed.

Lemma entry_le_fifo (a b : entry) : entry_le a b -> fifo_le a b.
Proof.
  unfold entry_le. intros Hab. apply entry_lt_false in Hab.
  unfold lex_le, fifo_le in *. intuition (first [lia | lra]).
Qed.

Lemma StronglySorted_weaken {A} (R R' : A -> A -> Prop) (l : list A) :
  (forall a b, R a b -> R' a b) -> StronglySorted R l -> StronglySorted R' l.
Proof.
  intros HR. induction 1 as [|x l _ IH Hx]; constructor; [done|].
  eapply Forall_impl; [exact Hx|]. intros y. apply HR.
Qed.

Lemma pq_put_elem (e x : entry) (q : list entry) :
  x ∈ pq_put e q <-> x = e \/ x ∈ q.
Proof.
  induction q as [|y q IH]; cbn.
  - rewrite list_elem_of_singleton. split; [by left|].
    intros [->|H]; [done|]. by apply not_elem_of_nil in H.
  - destruct (entry_lt e y); rewrite !elem_of_cons; [done|].
    rewrite IH. tauto.
Qed.

(** [put] keeps the queue in ascending order. *)
Lemma pq_put_sorted (e : entry) (q : list entry) :
  StronglySorted entry_le q -> StronglySorted entry_le (pq_put e q).
Proof.
  induction 1 as [|y q Hq IH Hy]; cbn.
  - repeat constructor.
  - destruct (entry_lt e y) eqn:E.
    + constructor; [by constructor|]. constructor; [by apply entry_lt_le|].
      eapply Forall_impl; [exact Hy|]. intros z Hz.
      eapply entry_le_trans; [|exact Hz]. by apply entry_lt_le.
    + constructor; [done|]. apply Forall_forall. intros z Hz.
      apply pq_put_elem in Hz as [->|Hz]; [exact E|].
      by eapply Forall_forall in Hy.
Qed.

(** A tuple that no queued tuple exceeds goes to the end. *)
Lemma pq_put_last (e : entry) (q : list entry) :
  Forall (fun x => entry_le x e) q -> pq_put e q = q ++ [e].
Proof.
  induction 1 as [|y q Hy _ IH]; cbn; [done|].
  unfold entry_le in Hy. by rewrite Hy, IH.
Qed.

Lemma unexpired_sublist (clk : nat -> Q) (k : nat) (timeout : Q)
    (pending : list entry) :
  unexpired clk k timeout pending `sublist_of` pending.
Proof.
  revert k. induction pending as [|e rest IH]; intros k; cbn; [done|].
  destruct (Qltb timeout (clk k - timestamp_of e)).
  - by apply sublist_cons.
  - by apply sublist_skip.
Qed.

Lemma StronglySorted_sublist {A} (R : A -> A -> Prop) (l1 l2 : list A) :
  l1 `sublist_of` l2 -> StronglySorted R l2 -> StronglySorted R l1.
Proof.
  induction 1 as [|x l1 l2 Hsub IH|x l1 l2 Hsub IH]; intros Hs; [done|..].
  - apply StronglySorted_cons in Hs as [Hx Hs]. constructor; [by apply IH|].
    apply Forall_forall. intros y Hy. eapply Forall_forall in Hx; [exact Hx|].
    by eapply elem_of_sublist.
  - apply StronglySorted_cons in Hs as [_ Hs]. by apply IH.
Qed.

End QueueOrder.

(** ** Load-Aware: what a call does on a reachable state *)

Section LoadAware.

Import LoadAwareBalancer.

Lemma set_request_queue_id (self : state) :
  set_request_queue (request_queue self) self = self.
Proof. by destruct self. Qed.

(** With no server in the registry the drain loop keeps the tuples that have
    not expired, in their order, and places nothing. *)
Lemma drain_queue_no_server (pending temp : list entry) (w : World) (self : state) :
  servers self = [] ->
  StronglySorted entry_le (temp ++ pending) ->
  drain_queue pending temp w self =
    {| out := Return (temp ++ unexpired (clock w) (ticks w)
                                 (request_timeout self) pending);
       st := match pending with
             | [] => self
             | _ :: _ => set_request_queue [] self
             end;
       world := advance (length pending) w |}.
Proof.
  revert temp w self.
  induction pending as [|e rest IH]; intros temp w self Hs Hsorted.
  - cbn. by rewrite app_nil_r.
  - cbn [drain_queue unexpired length advance].
    unfold bind, modify, time_time, get.
    cbn [out st world set_request_queue request_timeout servers]. rewrite Hs.
    cbn [feasible List.filter fmap list_fmap].
    destruct (Qltb (request_timeout self) (clock w (ticks w) - timestamp_of e)).
    + rewrite IH; [|done|].
      * cbn [set_request_queue request_timeout tick clock ticks].
        f_equal. by destruct rest.
      * eapply StronglySorted_sublist; [|exact Hsorted].
        apply sublist_app; [done|]. by apply sublist_cons.
    + assert (Hlast : pq_put e temp = temp ++ [e]).
      { apply pq_put_last, Forall_forall. intros x Hx.
        eapply StronglySorted_app_1_elem_of; [exact Hsorted|done|].
        apply list_elem_of_here. }
      rewrite Hlast, IH; [|done|by rewrite <- app_assoc].
      cbn [set_request_queue request_timeout tick clock ticks].
      rewrite <- app_assoc. f_equal. by destruct rest.
Qed.

(** Putting back an ascending run after the tuples already queued. *)
Lemma requeue_run (temp : list entry) (w : World) (self : state) :
  StronglySorted entry_le (request_queue self ++ temp) ->
  for_each temp requeue w self =
    {| out := Return tt;
       st := set_request_queue (request_queue self ++ temp) self;
       world := w |}.
Proof.
  revert self. induction temp as [|e temp IH]; intros self Hsorted.
  - cbn. by rewrite app_nil_r, set_request_queue_id.
  - cbn [for_each]. unfold bind.
    change (requeue e w self) with
      {| out := Return tt;
         st := set_request_queue (pq_put e (request_queue self)) self;
         world := w |}.
    cbn [out st world].
    assert (Hlast : pq_put e (request_queue self) = request_queue self ++ [e]).
    { apply pq_put_last, Forall_forall. intros x Hx.
      eapply StronglySorted_app_1_elem_of; [exact Hsorted|done|].
      apply list_elem_of_here. }
    rewrite Hlast, IH; cbn [set_request_queue request_queue].
    + by rewrite <- app_assoc.
    + by rewrite <- app_assoc.
Qed.

(** The reclaim pass finds nothing on servers that hold no request. *)
Lemma reclaim_idle_servers (current_time : Q) (names : list string)
    (w : World) (self : state) :
  names ⊆ (servers self).*1 ->
  (forall name srv, (name, srv) ∈ servers self -> idle srv) ->
  for_each names (reclaim_server current_time) w self =
    {| out := Return tt; st := self; world := w |}.
Proof.
  intros Hsub Hidle. induction names as [|name names IH]; [done|].
  destruct (dict_lookup_key (servers self) name) as [srv Hsrv].
  { apply Hsub, list_elem_of_here. }
  destruct (Hidle name srv) as (Hactive & _ & _); [by apply dict_lookup_In|].
  assert (Hstep : reclaim_server current_time name w self =
                    {| out := Return tt; st := self; world := w |}).
  { unfold reclaim_server, bind, get, dict_getitem. cbn [out st world].
    rewrite Hsrv. cbn [ret out st world].
    by rewrite Hactive, map_to_list_empty. }
  cbn [for_each]. unfold bind. rewrite Hstep. cbn [out st world].
  apply IH. intros x Hx. by apply Hsub, list_elem_of_further.
Qed.

(** The sweep on a reachable state: it returns, drops the expired tuples,
    and changes nothing else. *)
Lemma update_server_states_quiescent (w : World) (self : state) :
  quiescent self ->
  _update_server_states w self =
    {| out := Return tt;
       st := set_request_queue
               (unexpired (clock w) (S (ticks w)) (request_timeout self)
                  (request_queue self)) self;
       world := advance (length (request_queue self)) (tick w) |}.
Proof.
  intros (Hidle & Hempty & _ & Hsorted).
  unfold _update_server_states, bind, time_time, get. cbn [out st world].
  rewrite reclaim_idle_servers by done. cbn [out st world].
  assert (Hkept : StronglySorted entry_le
            (unexpired (clock w) (S (ticks w)) (request_timeout self)
               (request_queue self))).
  { eapply StronglySorted_sublist; [apply unexpired_sublist|done]. }
  destruct (request_queue self) as [|e rest] eqn:E.
  - cbn. by rewrite <- E, set_request_queue_id.
  - rewrite drain_queue_no_server; [|by apply Hempty|done].
    cbn [out st world app tick clock ticks].
    rewrite requeue_run; cbn [set_request_queue request_queue app]; done.
Qed.

Lemma unexpired_nil_inv (clk : nat -> Q) (k : nat) (timeout : Q)
    (pending : list entry) :
  unexpired clk k timeout pending <> [] -> pending <> [].
Proof. by destruct pending. Qed.

(** [assign_request] on a reachable state: after the sweep it queues the
    request when the registry is empty, and raises when it is not. *)
Lemma assign_request_quiescent (w : World) (self : state)
    (request_size priority : Z) :
  quiescent self ->
  let swept :=
    set_request_queue
      (unexpired (clock w) (S (ticks w)) (request_timeout self)
         (request_queue self)) self in
  let w1 := advance (length (request_queue self)) (tick w) in
  let req_id := request_counter self + 1 in
  let queue' :=
    pq_put (priority, clock w1 (ticks w1), req_id, request_size)
      (request_queue swept) in
  assign_request request_size priority w self =
    match servers self with
    | [] =>
        {| out := Return (Queued req_id (Z.of_nat (length queue')));
           st := set_request_queue queue' (set_request_counter req_id swept);
           world := tick w1 |}
    | _ :: _ =>
        {| out := Raise NameError;
           st := set_request_counter req_id swept;
           world := tick w1 |}
    end.
Proof.
  intros Hq. cbv zeta. unfold assign_request, bind.
  rewrite update_server_states_quiescent by done.
  unfold time_time, modify, get.
  cbn [out st world set_request_counter set_request_queue servers
       request_queue request_counter request_timeout completed_requests].
  destruct Hq as (Hidle & _).
  destruct (servers self) as [|[name srv] others]; [done|].
  destruct (Hidle name srv) as (_ & _ & Hstatus); [apply list_elem_of_here|].
  cbn [filter_comp]. unfold bind. rewrite Hstatus. reflexivity.
Qed.

Lemma remove_if_failed_frame (server : string) (w : World) (self : state) :
  let r := remove_if_failed server w self in
  servers (st r) ⊆ servers self /\
  request_queue (st r) = request_queue self /\
  completed_requests (st r) = completed_requests self.
Proof.
  cbv zeta. unfold remove_if_failed, bind, random_random, get, dict_getitem.
  cbn [out st world].
  destruct (Qltb (rng w (draws w)) (5 # 1000)); [|done].
  destruct (dict_lookup (servers self) server); cbn; [|done].
  split; [|done]. intros [name srv]. apply dict_remove_In.
Qed.

Lemma health_check_frame (names : list string) (w : World) (self : state) :
  let r := for_each names remove_if_failed w self in
  servers (st r) ⊆ servers self /\
  request_queue (st r) = request_queue self /\
  completed_requests (st r) = completed_requests self.
Proof.
  cbv zeta. revert w self. induction names as [|name names IH]; intros w self.
  - done.
  - cbn [for_each]. unfold bind.
    destruct (remove_if_failed_frame name w self) as (H1 & H2 & H3).
    destruct (out (remove_if_failed name w self)); cbn [st]; [|done].
    destruct (IH (world (remove_if_failed name w self))
                (st (remove_if_failed name w self))) as (H1' & H2' & H3').
    split; [by etrans|]. split; congruence.
Qed.

Lemma quiescent_fewer_servers (self self' : state) :
  quiescent self ->
  servers self' ⊆ servers self ->
  request_queue self' = request_queue self ->
  completed_requests self' = completed_requests self ->
  quiescent self'.
Proof.
  intros (Hidle & Hempty & Hdone & Hsorted) Hsub Hq Hc.
  repeat split.
  - by apply (Hidle name), Hsub.
  - by apply (Hidle name), Hsub.
  - by apply (Hidle name), Hsub.
  - rewrite Hq. intros Hne. specialize (Hempty Hne). rewrite Hempty in Hsub.
    destruct (servers self') as [|x l]; [done|].
    specialize (Hsub x (list_elem_of_here _ _)). by apply not_elem_of_nil in Hsub.
  - congruence.
  - by rewrite Hq.
Qed.

Lemma quiescent_swept (self : state) (clk : nat -> Q) (k : nat) :
  quiescent self ->
  quiescent (set_request_queue
               (unexpired clk k (request_timeout self) (request_queue self)) self).
Proof.
  intros (Hidle & Hempty & Hdone & Hsorted).
  unfold quiescent. cbn [set_request_queue servers request_queue completed_requests].
  split; [done|]. split; [|split; [done|]].
  - intros Hne. by apply unexpired_nil_inv, Hempty in Hne.
  - eapply StronglySorted_sublist; [apply unexpired_sublist|done].
Qed.

(** Every reachable state is quiescent. *)
Lemma reachable_quiescent (self : state) : reachable self -> quiescent self.
Proof.
  induction 1 as [pool timeout _|self w request_size priority _ IH
                 |self w _ IH|self w _ IH].
  - unfold quiescent, init. cbn [servers request_queue completed_requests].
    split; [|split; [done|split; [done|constructor]]].
    intros name srv Hin.
    by apply list_elem_of_fmap in Hin as [[name' cap] [[= -> ->] _]].
  - pose proof (assign_request_quiescent w self request_size priority IH) as Hrun.
    cbv zeta in Hrun. rewrite Hrun.
    pose proof (quiescent_swept self (clock w) (S (ticks w)) IH)
      as (Hidle & Hempty & Hdone & Hsorted).
    cbn [set_request_queue servers request_queue completed_requests] in *.
    destruct (servers self) as [|x others] eqn:E; unfold quiescent;
      cbn [st set_request_queue set_request_counter servers request_queue
           completed_requests]; rewrite ?E.
    + split; [done|]. split; [done|]. split; [done|]. by apply pq_put_sorted.
    + done.
  - rewrite update_server_states_quiescent by done. cbn [st].
    by apply quiescent_swept.
  - unfold health_check_round, bind, get. cbn [out st world].
    destruct (health_check_frame (servers self).*1 w self) as (H1 & H2 & H3).
    by eapply quiescent_fewer_servers.
Qed.

(** A call on a reachable state with a server in the registry raises
    [NameError]. *)
Lemma assign_request_raises (w : World) (self : state)
    (request_size priority : Z) :
  reachable self -> servers self <> [] ->
  out (assign_request request_size priority w self) = Raise NameError.
Proof.
  intros Hr Hne.
  pose proof (assign_request_quiescent w self request_size priority
                (reachable_quiescent self Hr)) as Hrun.
  cbv zeta in Hrun. rewrite Hrun. by destruct (servers self).
Qed.

End LoadAware.

(** ** Load-Aware: the selection rule *)

Section Selection.

Import LoadAwareBalancer.

Lemma key_lt_trans (a b c : Q * nat) :
  key_lt a b = false -> key_lt b c = false -> key_lt a c = false.
Proof.
  unfold key_lt.
  destruct (Qeq_bool a.1 b.1) eqn:Eab, (Qeq_bool b.1 c.1) eqn:Ebc,
    (Qeq_bool a.1 c.1) eqn:Eac; cbn [negb]; intros H1 H2; order_facts;
    rewrite ?Nat.ltb_ge, ?Qltb_false; first [lia | lra].
Qed.

Lemma key_lt_asym (a b : Q * nat) : key_lt a b = true -> key_lt b a = false.
Proof.
  unfold key_lt.
  destruct (Qeq_bool a.1 b.1) eqn:Eab, (Qeq_bool b.1 a.1) eqn:Eba;
    cbn [negb]; intros H; order_facts;
    rewrite ?Nat.ltb_ge, ?Qltb_false; first [lia | lra].
Qed.

Lemma load_key_run (req_size : Z) (s : string) (srv : server)
    (w : World) (self : state) :
  dict_lookup (servers self) s = Some srv -> capacity srv <> 0 ->
  load_key req_size s w self =
    {| out := Return (s, load_key_of req_size srv); st := self; world := w |}.
Proof.
  intros Hs Hc. unfold load_key, bind, get, dict_getitem, py_truediv.
  cbn [out st world]. rewrite Hs. cbn [ret out st world].
  by destruct (Z.eqb_spec (capacity srv) 0).
Qed.

Lemma map_load_key_run (req_size : Z) (names : list string)
    (w : World) (self : state) :
  (forall s, s ∈ names ->
     exists srv, dict_lookup (servers self) s = Some srv /\ capacity srv <> 0) ->
  exists ks,
    map_comp (load_key req_size) names w self =
      {| out := Return ks; st := self; world := w |} /\
    ks.*1 = names /\
    forall sk, sk ∈ ks ->
      exists srv, dict_lookup (servers self) sk.1 = Some srv /\
                  sk.2 = load_key_of req_size srv.
Proof.
  induction names as [|s names IH]; intros Hall.
  - exists []. split; [done|]. split; [done|].
    intros sk H. by apply not_elem_of_nil in H.
  - destruct (Hall s) as (srv & Hs & Hc); [apply list_elem_of_here|].
    destruct IH as (ks & Hrun & Hnames & Hks).
    { intros s' Hs'. by apply Hall, list_elem_of_further. }
    exists ((s, load_key_of req_size srv) :: ks). split; [|split].
    + cbn [map_comp]. unfold bind.
      rewrite (load_key_run req_size s srv) by done. cbn [out st world].
      by rewrite Hrun.
    + rewrite fmap_cons. by f_equal.
    + intros sk [->|Hin]%elem_of_cons; [by exists srv|by apply Hks].
Qed.

(** On feasible servers of non-zero capacity, [min] with the key of the
    source returns a server of the list whose pair (resulting load ratio,
    number of active requests) no other server of the list undercuts. *)
Lemma select_server_least (req_size : Z) (first : string)
    (others : list string) (w : World) (self : state) :
  (forall s, s ∈ first :: others ->
     exists srv, dict_lookup (servers self) s = Some srv /\ capacity srv <> 0) ->
  exists chosen srv_chosen,
    select_server req_size first others w self =
      {| out := Return chosen; st := self; world := w |} /\
    chosen ∈ first :: others /\
    dict_lookup (servers self) chosen = Some srv_chosen /\
    forall s srv, s ∈ first :: others ->
      dict_lookup (servers self) s = Some srv ->
      key_lt (load_key_of req_size srv) (load_key_of req_size srv_chosen) = false.
Proof.
  intros Hall.
  destruct (Hall first) as (srv0 & Hs0 & Hc0); [apply list_elem_of_here|].
  destruct (map_load_key_run req_size others w self)
    as (ks & Hrun & Hnames & Hks).
  { intros s Hs. by apply Hall, list_elem_of_further. }
  set (k0 := (first, load_key_of req_size srv0)).
  set (best := py_min key_lt snd k0 ks).
  assert (Hkeys : (k0 :: ks).*1 = first :: others).
  { rewrite fmap_cons. by f_equal. }
  assert (Hk : forall sk, sk ∈ k0 :: ks ->
            exists srv, dict_lookup (servers self) sk.1 = Some srv /\
                        sk.2 = load_key_of req_size srv).
  { intros sk [->|Hin]%elem_of_cons; [by exists srv0|by apply Hks]. }
  destruct (Hk best) as (srv_b & Hsb & Hkb); [apply py_min_In|].
  exists best.1, srv_b. split; [|split; [|split; [done|]]].
  - unfold select_server, bind.
    rewrite (load_key_run req_size first srv0) by done. cbn [out st world].
    by rewrite Hrun.
  - rewrite <- Hkeys. apply list_elem_of_fmap_2, py_min_In.
  - intros s srv Hs Hsrv. rewrite <- Hkb, <- Hkeys in *.
    apply list_elem_of_fmap in Hs as (sk & -> & Hsk).
    destruct (Hk sk Hsk) as (srv' & Hsrv' & Hkey).
    assert (srv' = srv) as -> by congruence. rewrite <- Hkey.
    apply py_min_least; [apply key_lt_trans|apply key_lt_asym|done].
Qed.

(** The sweep files a request it takes from the queue under the current
    value of the counter, not under the id the request was given.  On
    [placed_and_queued], the request queued under id 3 lands on [B] under
    id 7, the id of the request that [A] holds. *)
Example sweep_files_under_counter :
  let r := _update_server_states still_world placed_and_queued in
  out r = Return tt /\
  request_queue (st r) = [] /\
  (dict_lookup (servers (st r)) "A" ≫= fun srv => snd <$> active_requests srv !! 7)
    = Some 10 /\
  (dict_lookup (servers (st r)) "B" ≫= fun srv => snd <$> active_requests srv !! 7)
    = Some 5 /\
  (dict_lookup (servers (st r)) "B" ≫= fun srv => snd <$> active_requests srv !! 3)
    = None.
Proof. cbv zeta. repeat split; vm_compute; reflexivity. Qed.

End Selection.

(** ** Load-Aware: the claims *)

Section LoadAwareClaims.

Import LoadAwareBalancer.


Lemma pq_put_sublist (e : entry) (q : list entry) : q `sublist_of` pq_put e q.
Proof.
  induction q as [|x q IH]; cbn; [apply sublist_nil_l|].
  destruct (entry_lt e x); [by apply sublist_cons|by apply sublist_skip].
Qed.

(** C1, at the pool of the script.  The claim asks for a placed or a queued
    answer; the first call on the freshly built router raises [NameError],
    whatever the request size, the priority and the world.  The condition of
    the list comprehension of [assign_request] reads [req_size], a name that
    the method does not bind. *)
Theorem load_aware_assign_request_raises
    (w : World) (request_size priority : Z) :
  servers (init pool_web 5) <> [] /\
  out (assign_request request_size priority w (init pool_web 5)) =
    Raise NameError.
Proof.
  split; [done|].
  apply assign_request_raises; [|done].
  apply reachable_init. compute_done.
Qed.

(** C6, at the pool of the script and a request of size 50.  The three
    servers are feasible and the ratio rule names [web-03]
    (ratios 50/100, 50/150, 50/400), but [assign_request] raises [NameError]
    while it builds the feasible list, before [min] is reached: no server is
    chosen. *)
Theorem load_aware_assign_request_chooses_nothing (w : World) (priority : Z) :
  feasible 50 (servers (init pool_web 5)) = ["web-01"; "web-02"; "web-03"] /\
  out (select_server 50 "web-01" ["web-02"; "web-03"] w (init pool_web 5)) =
    Return "web-03" /\
  out (assign_request 50 priority w (init pool_web 5)) = Raise NameError /\
  (forall name srv,
     (name, srv) ∈ servers (st (assign_request 50 priority w (init pool_web 5))) ->
     active_requests srv = ∅).
Proof.
  assert (Hr : reachable (init pool_web 5)).
  { apply reachable_init. compute_done. }
  split; [done|]. split; [done|]. split.
  - by apply assign_request_raises.
  - intros name srv Hin.
    pose proof (reachable_assign _ w 50 priority Hr) as Hr'.
    apply reachable_quiescent in Hr' as (Hidle & _).
    by destruct (Hidle name srv Hin).
Qed.


End LoadAwareClaims.

(** ** Load-Aware: load and active sizes under the sweep *)

Section LoadTracking.

Import LoadAwareBalancer.


End LoadTracking.

(** * Further properties of the code *)

(** ** Round-Robin: the empty pool and the cycle *)

Section RoundRobinMore.

Import RoundRobinBalancer.

(** X1.  A router built over an empty dict has no server to pick: every call
    raises [IndexError] at [self.servers[self.index]] and leaves the state
    as it was. *)
Theorem rr_empty_pool_raises (self : state) (w : World) (request_size : Z) :
  reachable self -> servers self = [] ->
  assign_request request_size w self =
    {| out := Raise IndexError; st := self; world := w |}.
Proof.
  intros Hr Hs. destruct (rr_reachable_well_formed self Hr) as (_ & Hi & _).
  unfold assign_request, bind, get, list_getitem. cbn [out st world].
  rewrite Hs. cbn [length].
  destruct (Z.ltb_spec (index self) 0) as [?|_]; [lia|].
  destruct (Z.leb_spec 0 (index self)) as [_|?]; [|lia].
  destruct (Z.ltb_spec (index self) (Z.of_nat 0)) as [?|_]; [lia|].
  done.
Qed.

Lemma rr_empty_pool_raises_witness :
  assign_request 50 still_world (init []) =
    {| out := Raise IndexError; st := init []; world := still_world |}.
Proof.
  apply (rr_empty_pool_raises (init []) still_world 50).
  - apply reachable_init. compute_done.
  - reflexivity.
Defined.

Lemma set_index_id (self : state) : set_index (index self) self = self.
Proof. by destruct self. Qed.

(** X2.  A run of calls, [[rr.assign_request(size) for size in sizes]], on a
    router with [n] servers: the [j]-th call is answered from the server at
    position [(index + j) mod n], by its configured capacity alone, and the
    run leaves the index at [(index + len(sizes)) mod n] and nothing else
    changed.  So [n] calls bring the index back to where it was. *)
Theorem rr_calls_cycle (self : state) (w : World) (sizes : list Z) :
  reachable self -> servers self <> [] ->
  let n := Z.of_nat (length (servers self)) in
  let r := map_comp assign_request sizes w self in
  exists answers,
    out r = Return answers /\
    st r = set_index ((index self + Z.of_nat (length sizes)) mod n) self /\
    world r = w /\
    length answers = length sizes /\
    forall (j : nat) (size : Z), sizes !! j = Some size ->
      exists server cap,
        servers self !! Z.to_nat ((index self + Z.of_nat j) mod n) = Some server /\
        dict_lookup (capacities self) server = Some cap /\
        answers !! j = Some (if size >? cap then None else Some server).
Proof.
  cbv zeta. revert self w.
  induction sizes as [|size sizes IH]; intros self w Hr Hne.
  - destruct (rr_reachable_well_formed self Hr) as (_ & Hi & Hlt).
    specialize (Hlt Hne). exists []. cbn.
    rewrite Z.add_0_r, Z.mod_small, set_index_id by lia. done.
  - destruct (rr_reachable_well_formed self Hr) as (Hs & Hi & Hlt).
    specialize (Hlt Hne).
    destruct (lookup_lt_is_Some_2 (servers self) (Z.to_nat (index self)))
      as [server Hsrv]; [lia|].
    assert (is_Some (dict_lookup (capacities self) server)) as [cap Hcap].
    { apply dict_lookup_key. rewrite <- Hs.
      by apply list_elem_of_lookup_2 in Hsrv. }
    pose proof (rr_assign_request_run self w size server cap Hi Hsrv Hcap)
      as Hrun.
    pose proof (reachable_assign self w size Hr) as Hr1.
    rewrite Hrun in Hr1. cbn [st] in Hr1.
    set (n := Z.of_nat (length (servers self))) in *.
    set (self1 := set_index ((index self + 1) mod n) self) in *.
    destruct (IH self1 w Hr1 Hne) as (answers & Hout & Hst & Hw & Hlen & Hj).
    exists ((if size >? cap then None else Some server) :: answers).
    cbn [map_comp]. unfold bind. rewrite Hrun. cbn [out st world].
    fold self1. rewrite Hout, Hst, Hw. cbn [out st world].
    split; [done|]. split; [|split; [done|split; [cbn; by rewrite Hlen|]]].
    + subst self1. unfold ret, set_index. cbn [st servers capacities index].
      cbn [length]. rewrite Nat2Z.inj_succ, Z.add_mod_idemp_l by lia.
      do 2 f_equal. lia.
    + intros [|j] size' Hsize'.
      * injection Hsize' as <-. exists server, cap.
        rewrite Z.add_0_r, Z.mod_small by lia. done.
      * destruct (Hj j size' Hsize') as (server' & cap' & H1 & H2 & H3).
        exists server', cap'. subst self1.
        cbn [set_index servers capacities index] in H1, H2. fold n in H1.
        rewrite Z.add_mod_idemp_l in H1 by lia.
        replace (index self + Z.of_nat (S j)) with (index self + 1 + Z.of_nat j)
          by lia.
        done.
Qed.

(** Three calls on the three servers of [pool_ABC]. *)
Lemma rr_calls_cycle_witness :
  let self := init pool_ABC in
  let r := map_comp assign_request [50; 200; 500] still_world self in
  exists answers,
    out r = Return answers /\
    st r = set_index ((0 + Z.of_nat 3) mod Z.of_nat 3) self /\
    world r = still_world /\
    length answers = 3%nat /\
    forall (j : nat) (size : Z), [50; 200; 500] !! j = Some size ->
      exists server cap,
        servers self !! Z.to_nat ((0 + Z.of_nat j) mod Z.of_nat 3) = Some server /\
        dict_lookup (capacities self) server = Some cap /\
        answers !! j = Some (if size >? cap then None else Some server).
Proof.
  apply (rr_calls_cycle (init pool_ABC) still_world [50; 200; 500]).
  - apply reachable_init. compute_done.
  - discriminate.
Defined.

End RoundRobinMore.

(** ** [min]: the first of the least *)

(** [min] returns the first element whose key is least: every element before
    it has a strictly greater key, no element after it has a smaller one. *)
Lemma py_min_first {A K} (lt : K -> K -> bool) (key : A -> K) best rest :
  (forall a b c, lt a b = false -> lt b c = false -> lt a c = false) ->
  (forall a b, lt a b = true -> lt b a = false) ->
  exists l1 l2,
    best :: rest = l1 ++ py_min lt key best rest :: l2 /\
    (forall x, x ∈ l1 -> lt (key (py_min lt key best rest)) (key x) = true) /\
    (forall x, x ∈ l2 -> lt (key x) (key (py_min lt key best rest)) = false).
Proof.
  intros Htrans Hasym. revert best.
  induction rest as [|y rest IH]; intros best; cbn [py_min].
  - exists [], []. split; [done|]. split; intros x Hx; by apply not_elem_of_nil in Hx.
  - destruct (lt (key y) (key best)) eqn:E.
    + destruct (IH y) as (l1 & l2 & Heq & H1 & H2).
      remember (py_min lt key y rest) as r eqn:Hr. clear Hr.
      exists (best :: l1), l2. split; [by rewrite Heq|]. split; [|done].
      intros x [->|Hx]%elem_of_cons; [|by apply H1].
      destruct (lt (key r) (key best)) eqn:E'; [done|exfalso].
      assert (Hyr : lt (key y) (key r) = false).
      { destruct l1 as [|z l1].
        - injection Heq as -> _.
          destruct (lt (key r) (key r)) eqn:Err; [|done].
          by rewrite (Hasym _ _ Err) in Err.
        - injection Heq as <- _. apply Hasym, H1, list_elem_of_here. }
      by rewrite (Htrans _ _ _ Hyr E') in E.
    + destruct (IH best) as (l1 & l2 & Heq & H1 & H2).
      remember (py_min lt key best rest) as r eqn:Hr. clear Hr.
      destruct l1 as [|z l1].
      * injection Heq as -> ->. exists [], (y :: l2).
        split; [done|]. split.
        -- intros x Hx. by apply not_elem_of_nil in Hx.
        -- intros x [->|Hx]%elem_of_cons; [done|by apply H2].
      * injection Heq as <- ->. exists (best :: y :: l1), l2.
        split; [done|]. split; [|done].
        intros x [->|[->|Hx]%elem_of_cons]%elem_of_cons.
        -- apply H1, list_elem_of_here.
        -- destruct (lt (key r) (key y)) eqn:E'; [done|exfalso].
           pose proof (H1 best (list_elem_of_here _ _)) as Hrb.
           by rewrite (Htrans _ _ _ E' E) in Hrb.
        -- by apply H1, list_elem_of_further.
Qed.

(** An element of a filtered list splits the list it was filtered from. *)
Lemma filter_split_at {A} (f : A -> bool) (l l1 l2 : list A) (r : A) :
  List.filter f l = l1 ++ r :: l2 ->
  exists k1 k2, l = k1 ++ r :: k2 /\
                List.filter f k1 = l1 /\ List.filter f k2 = l2.
Proof.
  revert l1. induction l as [|x l IH]; intros l1; cbn [List.filter].
  - by destruct l1.
  - destruct (f x) eqn:E.
    + destruct l1 as [|y l1]; cbn [app].
      * intros [= -> <-]. exists [], l. done.
      * intros [= -> Hl]. destruct (IH l1 Hl) as (k1 & k2 & -> & <- & <-).
        exists (y :: k1), k2. cbn [List.filter app]. by rewrite E.
    + intros Hl. destruct (IH l1 Hl) as (k1 & k2 & -> & <- & <-).
      exists (x :: k1), k2. cbn [List.filter app]. by rewrite E.
Qed.

(** ** Least-Connections: the choice, the frame, the bound *)

Section LeastConnectionsMore.

Import LeastConnectionsBalancer.

(** X3.  When some server has room after the reclaim pass, [assign_request]
    returns a server that has room and the fewest connections among those
    that have; of several such servers it returns the first in dict order. *)
Theorem lc_picks_first_least_connected
    (self : state) (w : World) (request_size : Z) (name : string) (data : server) :
  (name, data) ∈ reclaimed w self -> fits request_size data ->
  exists before chosen after,
    reclaimed w self = before ++ chosen :: after /\
    out (assign_request request_size w self) = Return (Some chosen.1) /\
    fits request_size chosen.2 /\
    (forall x, x ∈ before -> fits request_size x.2 ->
       connections chosen.2 < connections x.2) /\
    (forall x, x ∈ after -> fits request_size x.2 ->
       connections chosen.2 <= connections x.2).
Proof.
  intros Hin Hfit.
  pose proof (lc_assign_request_run w self request_size) as Hrun.
  cbv zeta in Hrun.
  set (room := fun sd : string * server =>
                 let '(_, d) := sd in request_size <=? capacity d - current_load d)
    in *.
  assert (Hroom : forall x, room x = true <-> fits request_size x.2).
  { intros [n d]. unfold room, fits. cbn [snd]. apply Z.leb_le. }
  destruct (List.filter room (reclaimed w self)) as [|first others] eqn:E.
  - exfalso. assert (H : (name, data) ∈ List.filter room (reclaimed w self)).
    { apply list_elem_of_In, filter_In. split; [by apply list_elem_of_In|].
      by apply Hroom. }
    rewrite E in H. by apply not_elem_of_nil in H.
  - destruct Hrun as (data' & completion_time & _ & ->). cbn [out].
    destruct (py_min_first Z.ltb (fun sd : string * server => connections sd.2)
                first others) as (l1 & l2 & Heq & H1 & H2).
    { intros a b c. rewrite !Z.ltb_ge. lia. }
    { intros a b. rewrite Z.ltb_lt, Z.ltb_ge. lia. }
    set (chosen := py_min Z.ltb (fun sd => connections sd.2) first others) in *.
    rewrite Heq in E.
    destruct (filter_split_at room _ _ _ _ E) as (k1 & k2 & Hk & Hf1 & Hf2).
    exists k1, chosen, k2. split; [done|]. split; [done|]. split; [|split].
    + apply Hroom. assert (H : chosen ∈ List.filter room (reclaimed w self)).
      { rewrite E. apply elem_of_app. right. apply list_elem_of_here. }
      by apply list_elem_of_In, filter_In in H as [_ H].
    + intros x Hx Hfx. apply Z.ltb_lt, H1. rewrite <- Hf1.
      apply list_elem_of_In, filter_In. split; [by apply list_elem_of_In|].
      by apply Hroom.
    + intros x Hx Hfx. apply Z.ltb_ge, H2. rewrite <- Hf2.
      apply list_elem_of_In, filter_In. split; [by apply list_elem_of_In|].
      by apply Hroom.
Qed.

(** A request of size 90 on the fresh pool of the script. *)
Lemma lc_picks_first_least_connected_witness :
  let self := init pool_web in
  exists before chosen after,
    reclaimed still_world self = before ++ chosen :: after /\
    out (assign_request 90 still_world self) = Return (Some chosen.1) /\
    fits 90 chosen.2 /\
    (forall x, x ∈ before -> fits 90 x.2 ->
       connections chosen.2 < connections x.2) /\
    (forall x, x ∈ after -> fits 90 x.2 ->
       connections chosen.2 <= connections x.2).
Proof.
  apply (lc_picks_first_least_connected (init pool_web) still_world 90 "web-02"
           {| connections := 0; capacity := 150; current_load := 0;
              active_requests := [] |}).
  - apply list_elem_of_further, list_elem_of_here.
  - unfold fits. cbn. lia.
Defined.

End LeastConnectionsMore.

Section LeastConnectionsFrame.

Import LeastConnectionsBalancer.

Lemma filter_none_all {A} (p : A -> bool) (l : list A) :
  List.filter p l = [] -> List.filter (fun x => negb (p x)) l = l.
Proof.
  induction l as [|x l IH]; cbn [List.filter]; [done|].
  destruct (p x); [done|]. intros H. cbn. by rewrite IH.
Qed.

(** The reclaim of one server in closed form, without the loop and the
    [if completed:] guard. *)
Lemma reclaim_closed_form (current_time : Q) (data : server) :
  let completed :=
    List.filter (fun r => Qle_bool r.1 current_time) (active_requests data) in
  reclaim current_time data =
    {| connections := connections data - Z.of_nat (length completed);
       capacity := capacity data;
       current_load := current_load data - total_size completed;
       active_requests :=
         List.filter (fun r => Qltb current_time r.1) (active_requests data) |}.
Proof.
  cbv zeta. unfold reclaim.
  destruct (List.filter (fun r => Qle_bool r.1 current_time)
              (active_requests data)) as [|r0 completed] eqn:E.
  - unfold Qltb. rewrite (filter_none_all _ _ E).
    destruct data; cbn. f_equal; lia.
  - destruct (complete_all data (r0 :: completed)) as (H1 & H2 & H3 & _).
    cbv zeta in H1, H2, H3. by rewrite H1, H2, H3.
Qed.

(** X4.  The reclaim pass returns; it drops from every server the requests whose
    completion time is not after the clock reading, lowers the connection
    count by their number and the load by their sizes, and keeps the other
    requests in their order.  No request that is left has completed. *)
Theorem lc_reclaim_pass (self : state) (w : World) :
  let t := clock w (ticks w) in
  let r := _process_completed_requests w self in
  out r = Return tt /\
  servers (st r) =
    (fun '(name, data) =>
       let completed :=
         List.filter (fun r => Qle_bool r.1 t) (active_requests data) in
       (name,
        {| connections := connections data - Z.of_nat (length completed);
           capacity := capacity data;
           current_load := current_load data - total_size completed;
           active_requests :=
             List.filter (fun r => Qltb t r.1) (active_requests data) |}))
    <$> servers self /\
  forall name data request,
    (name, data) ∈ servers (st r) -> request ∈ active_requests data ->
    (t < request.1)%Q.
Proof.
  cbv zeta. rewrite process_completed_requests_run. cbn [out st servers].
  split; [done|].
  assert (Heq : reclaimed w self =
    (fun '(name, data) =>
       (name,
        {| connections := connections data - Z.of_nat (length
             (List.filter (fun r => Qle_bool r.1 (clock w (ticks w)))
                (active_requests data)));
           capacity := capacity data;
           current_load := current_load data - total_size
             (List.filter (fun r => Qle_bool r.1 (clock w (ticks w)))
                (active_requests data));
           active_requests :=
             List.filter (fun r => Qltb (clock w (ticks w)) r.1)
               (active_requests data) |}))
    <$> servers self).
  { unfold reclaimed. apply list_fmap_ext. intros _ [name data] _.
    by rewrite reclaim_closed_form. }
  split; [done|].
  intros name data request Hin Hreq. rewrite Heq in Hin.
  apply list_elem_of_fmap in Hin as [[name' data'] [[= -> ->] _]].
  cbn [active_requests] in Hreq.
  apply list_elem_of_In, filter_In in Hreq as [_ Hreq].
  by apply Qltb_spec.
Qed.

Lemma layout_update (d : dict server) (k : string) (v v' : server) :
  dict_lookup d k = Some v -> capacity v' = capacity v ->
  layout (dict_update d k v') = layout d.
Proof.
  unfold layout. intros Hk Hc.
  induction d as [|[k0 v0] d IH]; [done|].
  cbn [dict_lookup dict_update] in *.
  destruct (String.eqb k0 k).
  - injection Hk as ->. rewrite !fmap_cons. by rewrite Hc.
  - rewrite !fmap_cons. by rewrite IH.
Qed.

Lemma layout_reclaimed (w : World) (self : state) :
  layout (reclaimed w self) = layout (servers self).
Proof.
  unfold layout, reclaimed. rewrite <- list_fmap_compose.
  apply list_fmap_ext. intros _ [name data] _. cbn.
  by rewrite reclaim_closed_form.
Qed.

(** X5.  In any state and with any outcome, [assign_request] adds no server,
    removes none, and changes no name, no capacity and no position. *)
Theorem lc_layout_is_fixed (self : state) (w : World) (request_size : Z) :
  layout (servers (st (assign_request request_size w self))) =
  layout (servers self).
Proof.
  pose proof (lc_assign_request_run w self request_size) as Hrun.
  cbv zeta in Hrun.
  destruct (List.filter _ (reclaimed w self)) as [|first others].
  - rewrite Hrun. cbn [st servers]. apply layout_reclaimed.
  - destruct Hrun as (data & completion_time & Hdata & ->). cbn [st servers].
    rewrite (layout_update _ _ data); [apply layout_reclaimed|done|done].
Qed.

Lemma reclaim_within (current_time : Q) (data : server) :
  within_capacity data -> within_capacity (reclaim current_time data).
Proof.
  intros [Hload Hsizes]. rewrite reclaim_closed_form. cbv zeta.
  unfold within_capacity. cbn [current_load capacity active_requests]. split.
  - assert (0 <= total_size
              (List.filter (fun r => Qle_bool r.1 current_time)
                 (active_requests data))); [|lia].
    induction Hsizes as [|r l Hr _ IH]; cbn [List.filter]; [done|].
    destruct (Qle_bool r.1 current_time); [|done].
    cbn. fold (total_size (List.filter (fun r => Qle_bool r.1 current_time) l)).
    lia.
  - apply Forall_forall. intros r Hr.
    apply list_elem_of_In, filter_In in Hr as [Hr _].
    eapply Forall_forall in Hsizes; [exact Hsizes|by apply list_elem_of_In].
Qed.

(** X6.  No server is over-committed: when every server's load is within its
    capacity and every active request has a non-negative size, a call with a
    non-negative request size leaves it so. *)
Theorem lc_load_stays_within_capacity
    (self : state) (w : World) (request_size : Z) :
  reachable self -> 0 <= request_size ->
  (forall name data, (name, data) ∈ servers self -> within_capacity data) ->
  forall name data,
    (name, data) ∈ servers (st (assign_request request_size w self)) ->
    within_capacity data.
Proof.
  intros Hr Hsize Hall.
  destruct (lc_reachable_balanced self Hr) as [Hnd _].
  assert (Hrec : forall name data,
            (name, data) ∈ reclaimed w self -> within_capacity data).
  { intros name data Hin.
    apply list_elem_of_fmap in Hin as [[name' data'] [[= -> ->] Hin]].
    apply reclaim_within. by apply (Hall name'). }
  pose proof (lc_assign_request_run w self request_size) as Hrun.
  cbv zeta in Hrun.
  destruct (List.filter _ (reclaimed w self)) as [|first others] eqn:E.
  - rewrite Hrun. cbn [st servers]. exact Hrec.
  - destruct Hrun as (data & completion_time & Hdata & ->). cbn [st servers].
    set (chosen := py_min Z.ltb (fun sd => connections sd.2) first others) in *.
    assert (Hin : chosen ∈ first :: others) by apply py_min_In.
    rewrite <- E in Hin. apply list_elem_of_In, filter_In in Hin as [Hin Hfit].
    apply list_elem_of_In in Hin. destruct chosen as [name0 data0].
    cbn [fst] in *.
    assert (data = data0) as ->.
    { rewrite (dict_lookup_NoDup _ name0 data0) in Hdata.
      - by injection Hdata.
      - by rewrite reclaimed_keys.
      - done. }
    intros name data' Hin'. apply dict_update_In in Hin' as [Hin'|[_ ->]].
    + by apply (Hrec name).
    + destruct (Hrec name0 data0 Hin) as [Hload Hsizes].
      unfold within_capacity, accept. cbn [current_load capacity active_requests].
      split; [lia|]. apply Forall_app. split; [done|]. by constructor.
Qed.

(** A request of size 90 on the fresh pool of the script: the server that
    takes it. *)
Lemma lc_load_stays_within_capacity_witness :
  exists data,
    dict_lookup
      (servers (st (assign_request 90 still_world (init pool_web)))) "web-01"
      = Some data /\
    within_capacity data.
Proof.
  eexists. split; [reflexivity|].
  apply (lc_load_stays_within_capacity (init pool_web) still_world 90) with "web-01".
  - apply reachable_init. compute_done.
  - lia.
  - intros name data Hin. unfold init, pool_web in Hin. cbn in Hin.
    repeat (apply elem_of_cons in Hin as [[= -> ->]|Hin];
            [split; [cbn; lia|constructor]|]).
    by apply not_elem_of_nil in Hin.
  - apply dict_lookup_In. reflexivity.
Defined.

End LeastConnectionsFrame.

(** ** The facade adds the timing and nothing else *)

Section Facade.

Import LoadBalancer.

Lemma release_hook_run (server : served) (request_size : Z)
    (w : World) (alg : algorithm) :
  release_hook server request_size w alg =
    {| out := Return tt; st := alg; world := w |}.
Proof.
  unfold release_hook.
  destruct alg as [a|a|a], server as [[name|]|reply]; try done.
  by destruct (truthy (Some name)).
Qed.

(** X7.  Whatever router is configured, the facade answers what the router
    answers and leaves the router in the state the router's own call leaves;
    the elapsed time is the clock reading after the call minus the reading
    before it.  When the router raises, the facade raises the same exception
    and the second reading is not taken. *)
Theorem facade_is_transparent (alg : algorithm) (w : World) (request_size : Z) :
  let direct := call_assign_request request_size (tick w) alg in
  assign_request request_size w alg =
    match out direct with
    | Return answer =>
        {| out := Return (answer,
                          (clock (world direct) (ticks (world direct))
                           - clock w (ticks w))%Q);
           st := st direct;
           world := tick (draw (world direct)) |}
    | Raise e => {| out := Raise e; st := st direct; world := world direct |}
    end.
Proof.
  cbv zeta. unfold assign_request, bind, time_time. cbn [out st world].
  destruct (call_assign_request request_size (tick w) alg) as [[answer|e] s' w'];
    cbn [out st world]; [|done].
  unfold random_uniform, bind, random_random. cbn [out st world].
  unfold ret at 1. cbn [out st world].
  by rewrite release_hook_run.
Qed.

End Facade.

(** ** Load-Aware: request ids and the empty registry *)

Section LoadAwareIds.

Import LoadAwareBalancer.

Lemma pq_put_Permutation (e : entry) (q : list entry) : pq_put e q ≡ₚ e :: q.
Proof.
  induction q as [|x q IH]; cbn [pq_put]; [done|].
  destruct (entry_lt e x); [done|]. rewrite IH. apply Permutation_swap.
Qed.

Lemma health_check_counter (names : list string) (w : World) (self : state) :
  request_counter (st (for_each names remove_if_failed w self)) =
  request_counter self.
Proof.
  revert w self. induction names as [|name names IH]; intros w self; [done|].
  cbn [for_each]. unfold bind.
  assert (Hone : request_counter (st (remove_if_failed name w self)) =
                 request_counter self).
  { unfold remove_if_failed, bind, random_random, get, dict_getitem.
    cbn [out st world].
    destruct (Qltb (rng w (draws w)) (5 # 1000)); [|done].
    by destruct (dict_lookup (servers self) name). }
  destruct (out (remove_if_failed name w self)); cbn [st]; [|done].
  by rewrite IH.
Qed.

(** What holds of the ids in every reachable state. *)
Lemma reachable_ids (self : state) :
  reachable self ->
  NoDup (pending_ids self) /\
  Forall (fun req_id => 0 < req_id <= request_counter self) (pending_ids self) /\
  0 <= request_counter self.
Proof.
  induction 1 as [pool timeout _|self w request_size priority Hr IH
                 |self w Hr IH|self w Hr IH].
  - unfold pending_ids, init. cbn. split; [constructor|]. split; [constructor|lia].
  - destruct IH as (Hnd & Hall & Hc).
    pose proof (assign_request_quiescent w self request_size priority
                  (reachable_quiescent self Hr)) as Hrun.
    cbv zeta in Hrun. rewrite Hrun. clear Hrun.
    set (kept := unexpired (clock w) (S (ticks w)) (request_timeout self)
                   (request_queue self)).
    assert (Hsub : req_id_of <$> kept `sublist_of` pending_ids self).
    { apply fmap_sublist, unexpired_sublist. }
    assert (Hkept : Forall (fun req_id => 0 < req_id <= request_counter self)
                      (req_id_of <$> kept)).
    { apply Forall_forall. intros x Hx.
      eapply Forall_forall in Hall; [exact Hall|]. by eapply elem_of_sublist. }
    destruct (servers self); unfold pending_ids;
      cbn [st set_request_queue set_request_counter request_queue request_counter].
    + rewrite pq_put_Permutation, fmap_cons. fold kept. cbn [req_id_of fst snd].
      split; [|split; [|lia]].
      * apply NoDup_cons. split; [|by eapply sublist_NoDup].
        intros Hin. eapply Forall_forall in Hkept; [|exact Hin]. lia.
      * constructor; [lia|]. eapply Forall_impl; [exact Hkept|].
        intros x ?. cbn in *. lia.
    + fold kept. split; [by eapply sublist_NoDup|]. split; [|lia].
      eapply Forall_impl; [exact Hkept|]. intros x ?. cbn in *. lia.
  - destruct IH as (Hnd & Hall & Hc).
    rewrite update_server_states_quiescent by by apply reachable_quiescent.
    unfold pending_ids.
    cbn [st set_request_queue request_queue request_counter].
    assert (Hsub : req_id_of <$> unexpired (clock w) (S (ticks w))
                     (request_timeout self) (request_queue self)
                   `sublist_of` pending_ids self).
    { apply fmap_sublist, unexpired_sublist. }
    split; [by eapply sublist_NoDup|]. split; [|done].
    apply Forall_forall. intros x Hx.
    eapply Forall_forall in Hall; [exact Hall|]. by eapply elem_of_sublist.
  - unfold health_check_round, bind, get. cbn [out st world].
    destruct (health_check_frame (servers self).*1 w self) as (_ & Hq & _).
    unfold pending_ids. by rewrite Hq, health_check_counter.
Qed.

(** X8.  Request ids are never reused: in every reachable state the ids in the
    pending queue are pairwise distinct, each was issued (it lies between 1
    and the counter), and the next call takes the id after the counter
    whether it returns or raises. *)
Theorem request_ids_are_unique
    (self : state) (w : World) (request_size priority : Z) :
  reachable self ->
  NoDup (pending_ids self) /\
  Forall (fun req_id => 0 < req_id <= request_counter self) (pending_ids self) /\
  request_counter (st (assign_request request_size priority w self)) =
    request_counter self + 1 /\
  request_counter (st (_update_server_states w self)) = request_counter self /\
  request_counter (st (health_check_round w self)) = request_counter self.
Proof.
  intros Hr. destruct (reachable_ids self Hr) as (Hnd & Hall & _).
  split; [done|]. split; [done|]. split; [|split].
  - pose proof (assign_request_quiescent w self request_size priority
                  (reachable_quiescent self Hr)) as Hrun.
    cbv zeta in Hrun. rewrite Hrun. by destruct (servers self).
  - by rewrite update_server_states_quiescent by by apply reachable_quiescent.
  - unfold health_check_round, bind, get. cbn [out st world].
    apply health_check_counter.
Qed.

(** Two requests queued on an empty registry, then a third call. *)
Lemma request_ids_are_unique_witness :
  let self := st (assign_request 20 0 still_world
                    (st (assign_request 500 1 still_world (init [] 5)))) in
  NoDup (pending_ids self) /\
  Forall (fun req_id => 0 < req_id <= request_counter self) (pending_ids self) /\
  request_counter (st (assign_request 7 1 still_world self)) =
    request_counter self + 1 /\
  request_counter (st (_update_server_states still_world self)) =
    request_counter self /\
  request_counter (st (health_check_round still_world self)) =
    request_counter self.
Proof.
  apply (request_ids_are_unique
           (st (assign_request 20 0 still_world
                  (st (assign_request 500 1 still_world (init [] 5)))))
           still_world 7 1).
  apply reachable_assign, reachable_assign, reachable_init. compute_done.
Defined.

(** X9.  With no server in the registry, [assign_request] never raises: it queues
    the request under the next id and leaves the swept queue plus the new
    tuple.  The [queue_position] it reports is the length of the queue after
    the insertion, whatever the rank of the new tuple in it. *)
Theorem empty_registry_queues
    (self : state) (w : World) (request_size priority : Z) :
  reachable self -> servers self = [] ->
  let r := assign_request request_size priority w self in
  out r = Return (Queued (request_counter self + 1)
                    (Z.of_nat (length (request_queue (st r))))) /\
  servers (st r) = [] /\
  exists arrival,
    request_queue (st r) ≡ₚ
      (priority, arrival, request_counter self + 1, request_size)
        :: request_queue (st (_update_server_states w self)).
Proof.
  intros Hr Hs. cbv zeta.
  pose proof (reachable_quiescent self Hr) as Hq.
  pose proof (assign_request_quiescent w self request_size priority Hq) as Hrun.
  cbv zeta in Hrun. rewrite Hrun, Hs. clear Hrun.
  rewrite update_server_states_quiescent by done.
  cbn [out st set_request_queue set_request_counter request_queue servers].
  split; [done|]. split; [done|]. eexists. apply pq_put_Permutation.
Qed.

(** An urgent request behind a waiting one: it is reported at position 2
    although it is the head of the queue. *)
Lemma empty_registry_queues_witness :
  let self := st (assign_request 500 1 still_world (init [] 5)) in
  let r := assign_request 20 0 still_world self in
  out r = Return (Queued (request_counter self + 1)
                    (Z.of_nat (length (request_queue (st r))))) /\
  servers (st r) = [] /\
  exists arrival,
    request_queue (st r) ≡ₚ
      (0, arrival, request_counter self + 1, 20)
        :: request_queue (st (_update_server_states still_world self)).
Proof.
  apply (empty_registry_queues
           (st (assign_request 500 1 still_world (init [] 5))) still_world 20 0).
  - apply reachable_assign, reachable_init. compute_done.
  - reflexivity.
Defined.

End LoadAwareIds.

(** ** Load-Aware: expiry and order in the pending queue *)

Section PendingQueue.

Import LoadAwareBalancer.

Lemma unexpired_lookup (clk : nat -> Q) (k : nat) (timeout : Q)
    (pending : list entry) (i : nat) (e : entry) :
  pending !! i = Some e ->
  Qltb timeout (clk (k + i)%nat - timestamp_of e) = false ->
  e ∈ unexpired clk k timeout pending.
Proof.
  revert k i. induction pending as [|x rest IH]; intros k i Hi Hfresh; [done|].
  cbn [unexpired]. destruct i as [|i]; cbn in Hi.
  - injection Hi as ->. rewrite Nat.add_0_r in Hfresh. rewrite Hfresh.
    apply list_elem_of_here.
  - rewrite Nat.add_succ_r in Hfresh.
    destruct (Qltb timeout (clk k - timestamp_of x));
      [|apply list_elem_of_further]; by apply (IH (S k) i).
Qed.





(** C8.  In every reachable state the pending queue, read in the order in
    which [get()] returns its tuples, ascends by priority, then by arrival
    time, then by request id.  A sweep returns and leaves a sub-sequence of
    the queue: each tuple it puts back is as it was, and the tuples it puts
    back are in the order they had.  It puts back every tuple whose age is
    within [request_timeout] at the clock reading the sweep takes for it,
    which for the tuple at position [i] is the reading numbered
    [ticks w + 1 + i].  The queue that [assign_request] leaves is again in
    that order and contains the swept queue as a sub-sequence; when the call
    answers that the request is queued, the queue it leaves is the swept
    queue and the new tuple, stamped with the reading taken after the
    sweep. *)
Theorem pending_queue_order
    (self : state) (w : World) (request_size priority : Z) :
  reachable self ->
  let r := _update_server_states w self in
  let a := assign_request request_size priority w self in
  StronglySorted fifo_le (request_queue self) /\
  out r = Return tt /\
  (request_queue (st r) `sublist_of` request_queue self) /\
  (forall i e, request_queue self !! i = Some e ->
     (clock w (S (ticks w) + i) - timestamp_of e <= request_timeout self)%Q ->
     e ∈ request_queue (st r)) /\
  StronglySorted fifo_le (request_queue (st a)) /\
  (request_queue (st r) `sublist_of` request_queue (st a)) /\
  (forall req_id position, out a = Return (Queued req_id position) ->
     request_queue (st a) ≡ₚ
       (priority, clock (world r) (ticks (world r)), req_id, request_size)
         :: request_queue (st r)).
Proof.
  intros Hr. cbv zeta.
  pose proof (reachable_quiescent self Hr) as Hq.
  pose proof (reachable_quiescent _ (reachable_assign self w request_size priority Hr))
    as (_ & _ & _ & Hsorted').
  revert Hsorted'.
  pose proof (assign_request_quiescent w self request_size priority Hq) as Hrun.
  cbv zeta in Hrun. rewrite Hrun. clear Hrun.
  rewrite update_server_states_quiescent by done.
  cbn [out st world set_request_queue request_queue].
  intros Hsorted'.
  split; [|split; [done|split; [|split; [|split; [|split]]]]].
  - destruct Hq as (_ & _ & _ & Hsorted).
    eapply StronglySorted_weaken; [apply entry_le_fifo|done].
  - apply unexpired_sublist.
  - intros i e Hi Hfresh. eapply unexpired_lookup; [done|].
    by apply Qltb_false.
  - eapply StronglySorted_weaken; [apply entry_le_fifo|done].
  - destruct (servers self); cbn [st set_request_queue set_request_counter
                                  request_queue]; [apply pq_put_sublist|done].
  - intros req_id position.
    destruct (servers self); cbn [out st set_request_queue set_request_counter
                                  request_queue]; [|done].
    intros [= <- _]. apply pq_put_Permutation.
Qed.

(** C8 on the clock that advances by one at each reading, for the queue of
    two requests stamped at readings 1 and 4: the sweep puts back the tuple
    stamped at 4, read at 6, and a third request is queued behind it. *)
Lemma pending_queue_order_witness :
  let r0 := assign_request 500 1 ticking_world (init [] 5) in
  let r1 := assign_request 20 0 (world r0) (st r0) in
  let self := st r1 in
  let w := world r1 in
  let r := _update_server_states w self in
  let a := assign_request 7 1 w self in
  request_queue self = [(0, 4%Q, 2, 20); (1, 1%Q, 1, 500)] /\
  request_queue (st r) = [(0, 4%Q, 2, 20)] /\
  request_queue (st a) = [(0, 4%Q, 2, 20); (1, 8%Q, 3, 7)] /\
  StronglySorted fifo_le (request_queue self) /\
  out r = Return tt /\
  (request_queue (st r) `sublist_of` request_queue self) /\
  (forall i e, request_queue self !! i = Some e ->
     (clock w (S (ticks w) + i) - timestamp_of e <= request_timeout self)%Q ->
     e ∈ request_queue (st r)) /\
  StronglySorted fifo_le (request_queue (st a)) /\
  (request_queue (st r) `sublist_of` request_queue (st a)) /\
  (forall req_id position, out a = Return (Queued req_id position) ->
     request_queue (st a) ≡ₚ
       (1, clock (world r) (ticks (world r)), req_id, 7)
         :: request_queue (st r)).
Proof.
  split; [vm_compute; reflexivity|]. split; [vm_compute; reflexivity|].
  split; [vm_compute; reflexivity|].
  apply (pending_queue_order
           (st (assign_request 20 0
                  (world (assign_request 500 1 ticking_world (init [] 5)))
                  (st (assign_request 500 1 ticking_world (init [] 5)))))
           (world (assign_request 20 0
                  (world (assign_request 500 1 ticking_world (init [] 5)))
                  (st (assign_request 500 1 ticking_world (init [] 5)))))
           7 1).
  apply reachable_assign, reachable_assign, reachable_init. compute_done.
Defined.

End PendingQueue.

(** ** Load-Aware: the health-check round *)

Section HealthCheck.

Import LoadAwareBalancer.

Lemma dict_middle {V} (before : dict V) (name : string) (v : V) (rest : dict V) :
  name ∉ before.*1 ->
  dict_lookup (before ++ (name, v) :: rest) name = Some v /\
  dict_remove (before ++ (name, v) :: rest) name = before ++ rest.
Proof.
  induction before as [|[k0 v0] before IH]; intros Hk; cbn.
  - by rewrite String.eqb_refl.
  - rewrite fmap_cons, not_elem_of_cons in Hk. destruct Hk as [Hne Hk].
    destruct (String.eqb_spec k0 name) as [->|_]; [done|].
    destruct (IH Hk) as [-> ->]. done.
Qed.

Lemma remove_if_failed_run (name : string) (srv : server)
    (w : World) (self : state) :
  dict_lookup (servers self) name = Some srv ->
  remove_if_failed name w self =
    {| out := Return tt;
       st := if Qltb (rng w (draws w)) (5 # 1000)
             then set_servers (dict_remove (servers self) name) self
             else self;
       world := draw w |}.
Proof.
  intros Hlook. unfold remove_if_failed, bind, random_random.
  cbn [out st world].
  destruct (Qltb (rng w (draws w)) (5 # 1000)); [|done].
  unfold get, dict_getitem. cbn [out st world]. by rewrite Hlook.
Qed.

Lemma health_check_loop (before todo : dict server) (w : World) (self : state) :
  servers self = before ++ todo ->
  NoDup (before ++ todo).*1 ->
  let r := for_each todo.*1 remove_if_failed w self in
  out r = Return tt /\
  st r = set_servers (before ++ survivors (rng w) (draws w) todo) self /\
  draws (world r) = (draws w + length todo)%nat /\
  ticks (world r) = ticks w.
Proof.
  cbv zeta. revert before w self.
  induction todo as [|[name srv] todo IH]; intros before w self Hs Hnd.
  - cbn. rewrite <- Hs. split; [done|]. split; [by destruct self|].
    split; [lia|done].
  - rewrite fmap_cons. cbn [for_each fst survivors]. unfold bind.
    assert (Hfresh : name ∉ before.*1).
    { rewrite fmap_app, fmap_cons in Hnd. apply NoDup_app in Hnd as (_ & Hd & _).
      intros Hin. apply (Hd name Hin), list_elem_of_here. }
    destruct (dict_middle before name srv todo Hfresh) as [Hlook Hrem].
    rewrite (remove_if_failed_run name srv) by by rewrite Hs.
    cbn [out st world]. rewrite Hs, Hrem.
    destruct (Qltb (rng w (draws w)) (5 # 1000)).
    + destruct (IH before (draw w) (set_servers (before ++ todo) self))
        as (H1 & H2 & H3 & H4); [done| |].
      { rewrite fmap_app, fmap_cons in Hnd. rewrite fmap_app.
        apply NoDup_app in Hnd as (Hb & Hd & Ht). apply NoDup_app.
        split; [done|]. split.
        - intros x Hx Hx'. by apply (Hd x Hx), list_elem_of_further.
        - by apply NoDup_cons in Ht as [_ Ht]. }
      rewrite H1, H2, H3, H4. cbn [draw draws ticks rng set_servers
        servers request_queue request_timeout request_counter completed_requests length].
      repeat split; lia.
    + destruct (IH (before ++ [(name, srv)]) (draw w) self)
        as (H1 & H2 & H3 & H4).
      { by rewrite <- app_assoc. }
      { by rewrite <- app_assoc. }
      rewrite H1, H2, H3, H4. cbn [draw draws ticks rng length].
      rewrite <- app_assoc. repeat split; lia.
Qed.

(** X10.  A health-check round never raises and touches nothing but the registry.
    It draws once per server, in dict order, and deletes exactly the servers
    whose draw is below 0.005; the others stay in their order.  The clock is
    not read. *)
Theorem health_check_round_removes_by_draw (self : state) (w : World) :
  NoDup (servers self).*1 ->
  let r := health_check_round w self in
  out r = Return tt /\
  st r = set_servers (survivors (rng w) (draws w) (servers self)) self /\
  draws (world r) = (draws w + length (servers self))%nat /\
  ticks (world r) = ticks w.
Proof.
  intros Hnd. cbv zeta. unfold health_check_round, bind, get.
  cbn [out st world].
  apply (health_check_loop [] (servers self) w self); done.
Qed.

(** On the pool of the script with a generator that draws 0: every server is
    deleted. *)
Lemma health_check_round_removes_by_draw_witness :
  let self := init pool_web 5 in
  let r := health_check_round still_world self in
  out r = Return tt /\
  st r = set_servers (survivors (rng still_world) (draws still_world)
                        (servers self)) self /\
  draws (world r) = (draws still_world + length (servers self))%nat /\
  ticks (world r) = ticks still_world.
Proof.
  apply (health_check_round_removes_by_draw (init pool_web 5) still_world).
  compute_done.
Defined.

End HealthCheck.

(** ** What a computation keeps *)

Section Keeps.

Context {T : Type} (I : T -> Prop).

Lemma keeps_ret {A} (a : A) : keeps I (ret a).
Proof. by intros w s. Qed.

Lemma keeps_raise {A} (e : exn) : keeps I (@raise T A e).
Proof. by intros w s. Qed.

Lemma keeps_get : keeps I get.
Proof. by intros w s. Qed.

Lemma keeps_time_time : keeps I time_time.
Proof. by intros w s. Qed.

Lemma keeps_modify (f : T -> T) : (forall s, I s -> I (f s)) -> keeps I (modify f).
Proof. intros Hf w s. apply Hf. Qed.

Lemma keeps_bind {A B} (m : M T A) (k : A -> M T B) :
  keeps I m -> (forall a, keeps I (k a)) -> keeps I (bind m k).
Proof.
  intros Hm Hk w s Hs. unfold bind. specialize (Hm w s Hs).
  destruct (out (m w s)); [by apply Hk|done].
Qed.

Lemma keeps_random_uniform (a b : Q) : keeps I (random_uniform a b).
Proof. by intros w s. Qed.

Lemma keeps_for_each {A} (l : list A) (body : A -> M T unit) :
  (forall x, keeps I (body x)) -> keeps I (for_each l body).
Proof.
  intros Hbody. induction l as [|x l IH]; cbn [for_each].
  - apply keeps_ret.
  - by apply keeps_bind.
Qed.

Lemma keeps_map_comp {A B} (f : A -> M T B) (l : list A) :
  (forall x, keeps I (f x)) -> keeps I (map_comp f l).
Proof.
  intros Hf. induction l as [|x l IH]; cbn [map_comp].
  - apply keeps_ret.
  - apply keeps_bind; [done|]. intros y.
    apply keeps_bind; [done|]. intros ys. apply keeps_ret.
Qed.

Lemma keeps_filter_comp {A} (cond : A -> M T bool) (l : list A) :
  (forall x, keeps I (cond x)) -> keeps I (filter_comp cond l).
Proof.
  intros Hc. induction l as [|x l IH]; cbn [filter_comp].
  - apply keeps_ret.
  - apply keeps_bind; [done|]. intros b.
    apply keeps_bind; [done|]. intros ys. apply keeps_ret.
Qed.

Lemma keeps_dict_getitem {V} (d : dict V) (k : string) :
  keeps I (dict_getitem d k).
Proof. intros w s. unfold dict_getitem. by destruct (dict_lookup d k). Qed.

Lemma keeps_py_truediv (a b : Z) : keeps I (py_truediv a b).
Proof. intros w s. unfold py_truediv. by destruct (b =? 0). Qed.

End Keeps.

(** ** Load-Aware: what the sweep and [assign_request] never change *)

Section LoadAwareFrame.

Import LoadAwareBalancer.

Variable I : state -> Prop.

Hypothesis I_queue : forall s q, I s -> I (set_request_queue q s).

Hypothesis I_server : forall s name srv srv',
  I s -> dict_lookup (servers s) name = Some srv ->
  capacity srv' = capacity srv -> status srv' = status srv ->
  I (set_servers (dict_update (servers s) name srv') s).

Hypothesis I_completed : forall s req_id,
  I s -> I (set_completed_requests ({[req_id]} ∪ completed_requests s) s).

Hypothesis I_counter : forall s,
  I s -> I (set_request_counter (request_counter s + 1) s).

Lemma keeps_complete_request (server_name : string) (req_id : Z) :
  keeps I (complete_request server_name req_id).
Proof.
  intros w s Hs. unfold complete_request, bind, get, dict_getitem.
  cbn [out st world].
  destruct (dict_lookup (servers s) server_name) as [srv|] eqn:E;
    cbn [ret raise out st world]; [|done].
  destruct (active_requests srv !! req_id) as [[end_time size]|];
    cbn [put raise st]; [|done].
  apply (I_completed (set_servers _ s)). by eapply I_server.
Qed.

Lemma keeps_reclaim_server (current_time : Q) (server_name : string) :
  keeps I (reclaim_server current_time server_name).
Proof.
  unfold reclaim_server. apply keeps_bind; [apply keeps_get|]. intros self.
  apply keeps_bind; [apply keeps_dict_getitem|]. intros srv.
  apply keeps_for_each. intros req_id. apply keeps_complete_request.
Qed.

Lemma keeps_load_key (J : state -> Prop) (req_size : Z) (s : string) :
  keeps J (load_key req_size s).
Proof.
  unfold load_key. apply keeps_bind; [apply keeps_get|]. intros self.
  apply keeps_bind; [apply keeps_dict_getitem|]. intros srv.
  apply keeps_bind; [apply keeps_py_truediv|]. intros ratio. apply keeps_ret.
Qed.

Lemma keeps_select_server (J : state -> Prop) (req_size : Z)
    (first : string) (others : list string) :
  keeps J (select_server req_size first others).
Proof.
  unfold select_server. apply keeps_bind; [apply keeps_load_key|]. intros k.
  apply keeps_bind; [|intros ks; apply keeps_ret].
  apply keeps_map_comp. intros s. apply keeps_load_key.
Qed.

Lemma keeps_assign_to_server (server_name : string) (request_size : Z) :
  keeps I (_assign_to_server server_name request_size).
Proof.
  intros w s Hs.
  unfold _assign_to_server, bind, random_uniform, bind, random_random,
    time_time, get, dict_getitem.
  cbn [ret out st world].
  destruct (dict_lookup (servers s) server_name) as [srv|] eqn:E;
    cbn [ret raise put out st world]; [|done].
  by eapply I_server.
Qed.

Lemma keeps_drain_queue (pending temp_queue : list entry) :
  keeps I (drain_queue pending temp_queue).
Proof.
  revert temp_queue. induction pending as [|e rest IH]; intros temp_queue.
  - apply keeps_ret.
  - cbn [drain_queue].
    apply keeps_bind; [apply keeps_modify; intros s; apply I_queue|]. intros _.
    apply keeps_bind; [apply keeps_time_time|]. intros now.
    apply keeps_bind; [apply keeps_get|]. intros self.
    destruct (Qltb (request_timeout self) (now - timestamp_of e)); [apply IH|].
    destruct (feasible (req_size_of e) (servers self)) as [|first others];
      [apply IH|].
    apply keeps_bind; [apply keeps_select_server|]. intros server_name.
    apply keeps_bind; [apply keeps_assign_to_server|]. intros _. apply IH.
Qed.

Lemma keeps_update_server_states : keeps I _update_server_states.
Proof.
  unfold _update_server_states.
  apply keeps_bind; [apply keeps_time_time|]. intros current_time.
  apply keeps_bind; [apply keeps_get|]. intros self.
  apply keeps_bind.
  { apply keeps_for_each. intros name. apply keeps_reclaim_server. }
  intros _. apply keeps_bind; [apply keeps_get|]. intros self'.
  apply keeps_bind; [apply keeps_drain_queue|]. intros temp_queue.
  apply keeps_for_each. intros e. apply keeps_modify. intros s. apply I_queue.
Qed.

Lemma keeps_assign_request (request_size priority : Z) :
  keeps I (assign_request request_size priority).
Proof.
  unfold assign_request.
  apply keeps_bind; [apply keeps_update_server_states|]. intros _.
  apply keeps_bind; [apply keeps_time_time|]. intros current_time.
  apply keeps_bind; [apply keeps_modify, I_counter|]. intros _.
  apply keeps_bind; [apply keeps_get|]. intros self.
  apply keeps_bind.
  { apply keeps_filter_comp. intros [name srv].
    destruct (is_healthy (status srv)); [|apply keeps_ret].
    apply keeps_bind; [apply keeps_raise|]. intros v. apply keeps_ret. }
  intros available_servers.
  destruct (available_servers.*1) as [|first others].
  - apply keeps_bind; [apply keeps_modify; intros s; apply I_queue|]. intros _.
    apply keeps_bind; [apply keeps_get|]. intros self'. apply keeps_ret.
  - apply keeps_bind; [apply keeps_select_server|]. intros server_name.
    apply keeps_bind; [apply keeps_assign_to_server|]. intros _.
    apply keeps_ret.
Qed.

End LoadAwareFrame.

Section LoadAwareNeverChanges.

Import LoadAwareBalancer.

Lemma config_update (s : state) (name : string) (srv srv' : server) :
  dict_lookup (servers s) name = Some srv ->
  capacity srv' = capacity srv -> status srv' = status srv ->
  config (set_servers (dict_update (servers s) name srv') s) = config s.
Proof.
  intros Hk Hc Hst. unfold config. cbn [set_servers servers request_timeout].
  f_equal. induction (servers s) as [|[k0 v0] d IH]; [done|].
  cbn [dict_lookup dict_update] in *.
  destruct (String.eqb k0 name).
  - injection Hk as ->. rewrite !fmap_cons. by rewrite Hc, Hst.
  - rewrite !fmap_cons. by rewrite IH.
Qed.

(** X11.  In any state and with any outcome, the sweep and [assign_request] add no
    server, remove none, and change no name, capacity, status or position,
    nor the timeout: only a health-check round changes the registry's keys.
    The sweep leaves the counter as it is, and [assign_request] never lowers
    it. *)
Theorem configuration_is_fixed
    (self : state) (w : World) (request_size priority : Z) :
  config (st (_update_server_states w self)) = config self /\
  request_counter (st (_update_server_states w self)) = request_counter self /\
  config (st (assign_request request_size priority w self)) = config self /\
  request_counter self <=
    request_counter (st (assign_request request_size priority w self)).
Proof.
  split; [|split; [|split]].
  - apply (keeps_update_server_states (fun s => config s = config self));
      [done| |done|done].
    intros s name srv srv' <- Hk Hc Hst. by eapply config_update.
  - by apply (keeps_update_server_states
                (fun s => request_counter s = request_counter self)).
  - apply (keeps_assign_request (fun s => config s = config self));
      [done| |done|done|done].
    intros s name srv srv' <- Hk Hc Hst. by eapply config_update.
  - apply (keeps_assign_request
             (fun s => request_counter self <= request_counter s));
      [done|done|done| |done].
    intros s Hs. cbn. lia.
Qed.

(** X12.  In any state and with any outcome, a request id that is in
    [completed_requests] stays there: the sweep and [assign_request] only add
    to the set, and a health-check round leaves it as it is. *)
Theorem completed_requests_only_grow
    (self : state) (w : World) (request_size priority : Z) :
  completed_requests self ⊆ completed_requests (st (_update_server_states w self)) /\
  completed_requests self ⊆
    completed_requests (st (assign_request request_size priority w self)) /\
  completed_requests (st (health_check_round w self)) = completed_requests self.
Proof.
  split; [|split].
  - apply (keeps_update_server_states
             (fun s => completed_requests self ⊆ completed_requests s));
      [done|done| |done].
    intros s req_id Hs. cbn. set_solver.
  - apply (keeps_assign_request
             (fun s => completed_requests self ⊆ completed_requests s));
      [done|done| |done|done].
    intros s req_id Hs. cbn. set_solver.
  - unfold health_check_round, bind, get. cbn [out st world].
    apply health_check_frame.
Qed.

End LoadAwareNeverChanges.

(** ** Load-Aware: loads and sums on any state *)

Section LoadAwareAccounting.

Import LoadAwareBalancer.

Lemma total_size_delete (active : gmap Z (Q * Z)) (req_id : Z) (r : Q * Z) :
  active !! req_id = Some r ->
  total_size active = r.2 + total_size (delete req_id active).
Proof.
  intros Hr. unfold total_size.
  apply (map_fold_delete_L (fun _ r acc => r.2 + acc)); [|done].
  intros. lia.
Qed.

Lemma total_size_insert_fresh (active : gmap Z (Q * Z)) (req_id : Z) (r : Q * Z) :
  active !! req_id = None ->
  total_size (<[req_id := r]> active) = r.2 + total_size active.
Proof.
  intros Hr. unfold total_size.
  apply (map_fold_insert_L (fun _ r acc => r.2 + acc)); [|done].
  intros. lia.
Qed.

Lemma total_size_insert (active : gmap Z (Q * Z)) (req_id : Z) (r : Q * Z) :
  total_size (<[req_id := r]> active) =
  total_size active + r.2 - size_under req_id active.
Proof.
  unfold size_under. destruct (active !! req_id) as [[t z]|] eqn:E.
  - rewrite <- insert_delete_eq, total_size_insert_fresh
      by apply lookup_delete_eq.
    rewrite (total_size_delete active req_id (t, z)) by done. cbn. lia.
  - rewrite total_size_insert_fresh by done. lia.
Qed.

Lemma dict_lookup_update {V} (d : dict V) (k : string) (v v' : V) :
  dict_lookup d k = Some v -> dict_lookup (dict_update d k v') k = Some v'.
Proof.
  induction d as [|[k0 v0] d IH]; cbn [dict_lookup dict_update]; [done|].
  destruct (String.eqb k0 k) eqn:E; cbn [dict_lookup]; by rewrite E.
Qed.

(** X13.  [_assign_to_server] files the request under the current value of the
    counter and does not move the counter.  The record under that id now
    carries the request size, the records under the other ids are as they
    were.  The load of the server grows by the request size; the sum of the
    sizes of its active requests grows by that size less the size that was
    recorded under the same id before, which the new record replaces. *)
Theorem assign_to_server_accounting
    (self : state) (w : World) (server_name : string) (request_size : Z)
    (srv : server) :
  dict_lookup (servers self) server_name = Some srv ->
  let r := _assign_to_server server_name request_size w self in
  out r = Return (request_counter self) /\
  request_counter (st r) = request_counter self /\
  exists srv',
    dict_lookup (servers (st r)) server_name = Some srv' /\
    snd <$> active_requests srv' !! request_counter self = Some request_size /\
    (forall req_id, req_id <> request_counter self ->
       active_requests srv' !! req_id = active_requests srv !! req_id) /\
    current_load srv' = current_load srv + request_size /\
    total_size (active_requests srv') =
      total_size (active_requests srv) + request_size
      - size_under (request_counter self) (active_requests srv).
Proof.
  intros Hk. cbv zeta.
  unfold _assign_to_server, bind, random_uniform, bind, random_random,
    time_time, get, dict_getitem.
  cbn [ret out st world]. rewrite Hk. cbn [ret put out st world tick draw
    clock ticks set_servers servers request_counter].
  split; [done|]. split; [done|]. eexists. split.
  - by eapply dict_lookup_update.
  - cbn [active_requests current_load]. split; [by rewrite lookup_insert_eq|].
    split; [intros req_id Hne; by rewrite lookup_insert_ne|].
    split; [done|]. by rewrite total_size_insert.
Qed.

(** On [placed_and_queued], where [A] holds a request of size 10 under the
    id the counter shows. *)
Lemma assign_to_server_accounting_witness :
  let srv := {| capacity := 100; active_requests := {[ 7 := (100%Q, 10) ]};
                current_load := 10; status := healthy |} in
  let r := _assign_to_server "A" 5 still_world placed_and_queued in
  out r = Return (request_counter placed_and_queued) /\
  request_counter (st r) = request_counter placed_and_queued /\
  exists srv',
    dict_lookup (servers (st r)) "A" = Some srv' /\
    snd <$> active_requests srv' !! request_counter placed_and_queued = Some 5 /\
    (forall req_id, req_id <> request_counter placed_and_queued ->
       active_requests srv' !! req_id = active_requests srv !! req_id) /\
    current_load srv' = current_load srv + 5 /\
    total_size (active_requests srv') =
      total_size (active_requests srv) + 5
      - size_under (request_counter placed_and_queued) (active_requests srv).
Proof.
  apply (assign_to_server_accounting placed_and_queued still_world "A" 5).
  reflexivity.
Defined.

End LoadAwareAccounting.

(** ** Load-Aware: [min] over the feasible servers *)

Section SelectionMore.

Import LoadAwareBalancer.

(** X14.  [min] over feasible servers returns, without touching the state, the
    first server of the list whose pair (resulting load ratio, number of
    active requests) is least: every server listed before it has a strictly
    greater pair, no server listed after it has a smaller one.  The listed
    servers are in the registry, the request fits each
    ([0 <= current_load + req_size <= capacity]) and capacities are below
    [2 ^ 25]: on such servers the ratios lie between 0 and 1 and two of them
    that differ, differ by more than [2 ^ -50], so the floats that the
    source compares are ordered as the ratios are. *)
Theorem select_server_first_least (req_size : Z) (first : string)
    (others : list string) (w : World) (self : state) :
  (forall s, s ∈ first :: others ->
     exists srv, dict_lookup (servers self) s = Some srv /\
                 0 <= current_load srv + req_size <= capacity srv /\
                 0 < capacity srv < 2 ^ 25) ->
  exists chosen srv_chosen before after,
    select_server req_size first others w self =
      {| out := Return chosen; st := self; world := w |} /\
    first :: others = before ++ chosen :: after /\
    dict_lookup (servers self) chosen = Some srv_chosen /\
    (forall s srv, s ∈ before -> dict_lookup (servers self) s = Some srv ->
       key_lt (load_key_of req_size srv_chosen) (load_key_of req_size srv) = true) /\
    (forall s srv, s ∈ after -> dict_lookup (servers self) s = Some srv ->
       key_lt (load_key_of req_size srv) (load_key_of req_size srv_chosen) = false).
Proof.
  intros Hfit.
  assert (Hall : forall s, s ∈ first :: others ->
            exists srv, dict_lookup (servers self) s = Some srv /\
                        capacity srv <> 0).
  { intros s Hs. destruct (Hfit s Hs) as (srv & Hsrv & _ & Hcap).
    exists srv. split; [done|lia]. }
  destruct (Hall first) as (srv0 & Hs0 & Hc0); [apply list_elem_of_here|].
  destruct (map_load_key_run req_size others w self)
    as (ks & Hrun & Hnames & Hks).
  { intros s Hs. by apply Hall, list_elem_of_further. }
  set (k0 := (first, load_key_of req_size srv0)).
  assert (Hkeys : (k0 :: ks).*1 = first :: others).
  { rewrite fmap_cons. by f_equal. }
  assert (Hk : forall sk, sk ∈ k0 :: ks ->
            exists srv, dict_lookup (servers self) sk.1 = Some srv /\
                        sk.2 = load_key_of req_size srv).
  { intros sk [->|Hin]%elem_of_cons; [by exists srv0|by apply Hks]. }
  destruct (py_min_first key_lt snd k0 ks key_lt_trans key_lt_asym)
    as (m1 & m2 & Hsplit & Hm1 & Hm2).
  remember (py_min key_lt snd k0 ks) as best eqn:Hbest.
  destruct (Hk best) as (srv_b & Hsb & Hkb).
  { rewrite Hbest. apply py_min_In. }
  exists best.1, srv_b, m1.*1, m2.*1. split; [|split; [|split; [done|split]]].
  - unfold select_server, bind.
    rewrite (load_key_run req_size first srv0) by done. cbn [out st world].
    rewrite Hrun. cbn [out st world]. fold k0. by rewrite <- Hbest.
  - by rewrite <- Hkeys, Hsplit, fmap_app, fmap_cons.
  - intros s srv Hs Hsrv. apply list_elem_of_fmap in Hs as (sk & -> & Hsk).
    destruct (Hk sk) as (srv' & Hsrv' & Hkey).
    { rewrite Hsplit. apply elem_of_app. by left. }
    assert (srv' = srv) as -> by congruence.
    rewrite <- Hkb, <- Hkey. by apply Hm1.
  - intros s srv Hs Hsrv. apply list_elem_of_fmap in Hs as (sk & -> & Hsk).
    destruct (Hk sk) as (srv' & Hsrv' & Hkey).
    { rewrite Hsplit. apply elem_of_app. right. by apply list_elem_of_further. }
    assert (srv' = srv) as -> by congruence.
    rewrite <- Hkb, <- Hkey. by apply Hm2.
Qed.

(** The three servers of the script, empty, for a request of size 50. *)
Lemma select_server_first_least_witness :
  let self := init pool_web 5 in
  exists chosen srv_chosen before after,
    select_server 50 "web-01" ["web-02"; "web-03"] still_world self =
      {| out := Return chosen; st := self; world := still_world |} /\
    "web-01" :: ["web-02"; "web-03"] = before ++ chosen :: after /\
    dict_lookup (servers self) chosen = Some srv_chosen /\
    (forall s srv, s ∈ before -> dict_lookup (servers self) s = Some srv ->
       key_lt (load_key_of 50 srv_chosen) (load_key_of 50 srv) = true) /\
    (forall s srv, s ∈ after -> dict_lookup (servers self) s = Some srv ->
       key_lt (load_key_of 50 srv) (load_key_of 50 srv_chosen) = false).
Proof.
  apply (select_server_first_least 50 "web-01" ["web-02"; "web-03"] still_world
           (init pool_web 5)).
  intros s Hs.
  repeat (apply elem_of_cons in Hs as [->|Hs];
          [eexists; split; [reflexivity|cbn; lia]|]).
  by apply not_elem_of_nil in Hs.
Defined.

Lemma load_key_zero (req_size : Z) (s : string) (srv : server)
    (w : World) (self : state) :
  dict_lookup (servers self) s = Some srv -> capacity srv = 0 ->
  load_key req_size s w self =
    {| out := Raise ZeroDivisionError; st := self; world := w |}.
Proof.
  intros Hs Hc. unfold load_key, bind, get, dict_getitem, py_truediv.
  cbn [out st world]. rewrite Hs. cbn [ret out st world]. by rewrite Hc.
Qed.

Lemma map_load_key_zero (req_size : Z) (names : list string)
    (w : World) (self : state) :
  (forall s, s ∈ names -> is_Some (dict_lookup (servers self) s)) ->
  (exists s srv, s ∈ names /\ dict_lookup (servers self) s = Some srv /\
                 capacity srv = 0) ->
  map_comp (load_key req_size) names w self =
    {| out := Raise ZeroDivisionError; st := self; world := w |}.
Proof.
  induction names as [|s names IH]; intros Hall (z & srvz & Hz & Hlz & Hcz).
  - by apply not_elem_of_nil in Hz.
  - destruct (Hall s) as [srv Hs]; [apply list_elem_of_here|].
    cbn [map_comp]. unfold bind.
    destruct (decide (capacity srv = 0)) as [Hc|Hc].
    + by rewrite (load_key_zero req_size s srv).
    + rewrite (load_key_run req_size s srv) by done. cbn [out st world].
      rewrite IH; [done| |].
      * intros s' Hs'. by apply Hall, list_elem_of_further.
      * apply elem_of_cons in Hz as [->|Hz]; [congruence|].
        by exists z, srvz.
Qed.

(** X15.  The key function divides by the capacity: when the registry holds every
    listed server and one of them has capacity 0, [min] raises
    [ZeroDivisionError] and the state is as it was. *)
Theorem select_server_zero_capacity (req_size : Z) (first : string)
    (others : list string) (w : World) (self : state) (zero : string)
    (srv_zero : server) :
  (forall s, s ∈ first :: others -> is_Some (dict_lookup (servers self) s)) ->
  zero ∈ first :: others ->
  dict_lookup (servers self) zero = Some srv_zero ->
  capacity srv_zero = 0 ->
  select_server req_size first others w self =
    {| out := Raise ZeroDivisionError; st := self; world := w |}.
Proof.
  intros Hall Hz Hlz Hcz. unfold select_server, bind.
  destruct (Hall first) as [srv0 Hs0]; [apply list_elem_of_here|].
  destruct (decide (capacity srv0 = 0)) as [Hc|Hc].
  - by rewrite (load_key_zero req_size first srv0).
  - rewrite (load_key_run req_size first srv0) by done. cbn [out st world].
    rewrite map_load_key_zero; [done| |].
    + intros s Hs. by apply Hall, list_elem_of_further.
    + apply elem_of_cons in Hz as [->|Hz]; [congruence|].
      by exists zero, srv_zero.
Qed.

(** A pool with a server of capacity 0 and a request of size 0. *)
Lemma select_server_zero_capacity_witness :
  select_server 0 "web-01" ["spare"] still_world
    (init [("web-01", 100); ("spare", 0)] 5) =
    {| out := Raise ZeroDivisionError;
       st := init [("web-01", 100); ("spare", 0)] 5;
       world := still_world |}.
Proof.
  apply (select_server_zero_capacity 0 "web-01" ["spare"] still_world
           (init [("web-01", 100); ("spare", 0)] 5) "spare"
           {| capacity := 0; active_requests := ∅; current_load := 0;
              status := healthy |}).
  - intros s Hs.
    repeat (apply elem_of_cons in Hs as [->|Hs]; [by eexists|]).
    by apply not_elem_of_nil in Hs.
  - apply list_elem_of_further, list_elem_of_here.
  - reflexivity.
  - reflexivity.
Defined.

End SelectionMore.

(** ** The clock under a computation *)

Section Steady.

Context {T : Type}.

Lemma steady_ret {A} (a : A) : steady (@ret T A a).
Proof. by intros w s. Qed.

Lemma steady_raise {A} (e : exn) : steady (@raise T A e).
Proof. by intros w s. Qed.

Lemma steady_get : steady (@get T).
Proof. by intros w s. Qed.

Lemma steady_put (s' : T) : steady (put s').
Proof. by intros w s. Qed.

Lemma steady_modify (f : T -> T) : steady (modify f).
Proof. by intros w s. Qed.

Lemma steady_time_time : steady (@time_time T).
Proof. intros w s. cbn. split; [done|lia]. Qed.

Lemma steady_bind {A B} (m : M T A) (k : A -> M T B) :
  steady m -> (forall a, steady (k a)) -> steady (bind m k).
Proof.
  intros Hm Hk w s. unfold bind. destruct (Hm w s) as [H1 H2].
  destruct (out (m w s)) as [a|e]; [|done]. cbn [world].
  destruct (Hk a (world (m w s)) (st (m w s))) as [H3 H4].
  split; [congruence|lia].
Qed.

Lemma steady_random_uniform (a b : Q) : steady (@random_uniform T a b).
Proof. by intros w s. Qed.

Lemma steady_map_comp {A B} (f : A -> M T B) (l : list A) :
  (forall x, steady (f x)) -> steady (map_comp f l).
Proof.
  intros Hf. induction l as [|x l IH]; cbn [map_comp].
  - apply steady_ret.
  - apply steady_bind; [done|]. intros y.
    apply steady_bind; [done|]. intros ys. apply steady_ret.
Qed.

Lemma steady_for_each {A} (l : list A) (body : A -> M T unit) :
  (forall x, steady (body x)) -> steady (for_each l body).
Proof.
  intros Hb. induction l as [|x l IH]; cbn [for_each].
  - apply steady_ret.
  - by apply steady_bind.
Qed.

Lemma steady_dict_getitem {V} (d : dict V) (k : string) :
  steady (@dict_getitem T V d k).
Proof. intros w s. unfold dict_getitem. by destruct (dict_lookup d k). Qed.

Lemma steady_py_truediv (a b : Z) : steady (@py_truediv T a b).
Proof. intros w s. unfold py_truediv. by destruct (b =? 0). Qed.

End Steady.

(** ** Load-Aware: the queue pass of the sweep on any state *)

Section QueuePass.

Import LoadAwareBalancer.

Lemma steady_select_server (req_size : Z) (first : string) (others : list string) :
  steady (select_server req_size first others).
Proof.
  assert (Hkey : forall s, steady (load_key req_size s)).
  { intros s. unfold load_key. apply steady_bind; [apply steady_get|]. intros self.
    apply steady_bind; [apply steady_dict_getitem|]. intros srv.
    apply steady_bind; [apply steady_py_truediv|]. intros ratio. apply steady_ret. }
  unfold select_server. apply steady_bind; [done|]. intros k.
  apply steady_bind; [by apply steady_map_comp|]. intros ks. apply steady_ret.
Qed.

Lemma steady_assign_to_server (server_name : string) (request_size : Z) :
  steady (_assign_to_server server_name request_size).
Proof.
  unfold _assign_to_server.
  apply steady_bind; [apply steady_random_uniform|]. intros processing_time.
  apply steady_bind; [apply steady_time_time|]. intros now.
  apply steady_bind; [apply steady_get|]. intros self.
  apply steady_bind; [apply steady_dict_getitem|]. intros srv.
  apply steady_bind; [apply steady_put|]. intros _. apply steady_ret.
Qed.

Lemma steady_reclaim_server (current_time : Q) (server_name : string) :
  steady (reclaim_server current_time server_name).
Proof.
  unfold reclaim_server. apply steady_bind; [apply steady_get|]. intros self.
  apply steady_bind; [apply steady_dict_getitem|]. intros srv.
  apply steady_for_each. intros req_id. unfold complete_request.
  apply steady_bind; [apply steady_get|]. intros self'.
  apply steady_bind; [apply steady_dict_getitem|]. intros srv'.
  destruct (active_requests srv' !! req_id) as [[end_time size]|];
    [apply steady_put|apply steady_raise].
Qed.

Lemma placement_keeps_queue (q : list entry) (timeout : Q)
    (req_size : Z) (first : string) (others : list string) :
  keeps (queue_and_timeout q timeout)
    (server_name <- select_server req_size first others;;
     _assign_to_server server_name req_size).
Proof.
  apply keeps_bind; [apply keeps_select_server|]. intros server_name.
  apply keeps_assign_to_server. by intros s name srv srv' [? ?] _ _ _.
Qed.

Lemma steady_placement (req_size : Z) (first : string) (others : list string) :
  steady (server_name <- select_server req_size first others;;
          _assign_to_server server_name req_size).
Proof.
  apply steady_bind; [apply steady_select_server|]. intros server_name.
  apply steady_assign_to_server.
Qed.

(** One turn of the drain loop. *)
Lemma drain_queue_step (e : entry) (rest temp : list entry)
    (w : World) (s : state) :
  drain_queue (e :: rest) temp w s =
    let s1 := set_request_queue rest s in
    if Qltb (request_timeout s) (clock w (ticks w) - timestamp_of e) then
      drain_queue rest temp (tick w) s1
    else
      match feasible (req_size_of e) (servers s) with
      | [] => drain_queue rest (pq_put e temp) (tick w) s1
      | first :: others =>
          let placed :=
            (server_name <- select_server (req_size_of e) first others;;
             _assign_to_server server_name (req_size_of e)) (tick w) s1 in
          match out placed with
          | Return _ => drain_queue rest temp (world placed) (st placed)
          | Raise x => {| out := Raise x; st := st placed; world := world placed |}
          end
      end.
Proof.
  cbn [drain_queue]. unfold bind, modify, time_time, get.
  cbn [out st world set_request_queue request_timeout servers].
  destruct (Qltb (request_timeout s) (clock w (ticks w) - timestamp_of e));
    [done|].
  destruct (feasible (req_size_of e) (servers s)) as [|first others]; [done|].
  cbv zeta.
  destruct (select_server (req_size_of e) first others (tick w)
              (set_request_queue rest s)) as [[name|x] s' w']; [|done].
  cbn [out st world].
  by destruct (_assign_to_server name (req_size_of e) w' s') as [[y|x] s'' w''].
Qed.

(** The drain loop on any state, when it returns: the queue is empty, and
    the holding area has received, in their order, tuples of the queue that
    were within the timeout at a clock reading of the loop. *)
Lemma drain_queue_keeps_order (pending temp : list entry) (w : World)
    (s : state) (temp' : list entry) :
  request_queue s = pending ->
  StronglySorted entry_le (temp ++ pending) ->
  out (drain_queue pending temp w s) = Return temp' ->
  request_queue (st (drain_queue pending temp w s)) = [] /\
  exists kept,
    temp' = temp ++ kept /\ kept `sublist_of` pending /\
    forall e, e ∈ kept ->
      exists k, (ticks w <= k)%nat /\
                Qltb (request_timeout s) (clock w k - timestamp_of e) = false.
Proof.
  revert temp w s.
  induction pending as [|e rest IH]; intros temp w s Hq Hsorted Hout.
  - cbn in *. injection Hout as <-. split; [done|]. exists [].
    rewrite app_nil_r. split; [done|]. split; [done|].
    intros e He. by apply not_elem_of_nil in He.
  - rewrite drain_queue_step in Hout |- *. cbv zeta in Hout |- *.
    set (s1 := set_request_queue rest s) in *.
    assert (Hs1 : queue_and_timeout rest (request_timeout s) s1) by done.
    assert (Hskip : forall w2 s2 temp2,
              queue_and_timeout rest (request_timeout s) s2 ->
              clock w2 = clock w -> (ticks w <= ticks w2)%nat ->
              StronglySorted entry_le (temp2 ++ rest) ->
              out (drain_queue rest temp2 w2 s2) = Return temp' ->
              request_queue (st (drain_queue rest temp2 w2 s2)) = [] /\
              exists kept,
                temp' = temp2 ++ kept /\ kept `sublist_of` rest /\
                forall x, x ∈ kept ->
                  exists k, (ticks w <= k)%nat /\
                    Qltb (request_timeout s) (clock w k - timestamp_of x)
                    = false).
    { intros w2 s2 temp2 [Hq2 Ht2] Hc2 Hle2 Hsorted2 Hout2.
      destruct (IH temp2 w2 s2 Hq2 Hsorted2 Hout2)
        as (Hq' & kept & -> & Hsub & Hk).
      split; [done|]. exists kept. split; [done|]. split; [done|].
      intros x Hx. destruct (Hk x Hx) as (k & Hle & Hok).
      exists k. rewrite Ht2, Hc2 in Hok. split; [lia|done]. }
    assert (Hwithout : StronglySorted entry_le (temp ++ rest)).
    { eapply StronglySorted_sublist; [|exact Hsorted].
      apply sublist_app; [done|]. by apply sublist_cons. }
    destruct (Qltb (request_timeout s) (clock w (ticks w) - timestamp_of e))
      eqn:Hexp.
    + destruct (Hskip (tick w) s1 temp Hs1)
        as (Hq' & kept & -> & Hsub & Hk); [done|cbn; lia|done|done|].
      split; [done|]. exists kept. split; [done|]. split; [|done].
      by apply sublist_cons.
    + destruct (feasible (req_size_of e) (servers s)) as [|first others].
      * assert (Hlast : pq_put e temp = temp ++ [e]).
        { apply pq_put_last, Forall_forall. intros x Hx.
          eapply StronglySorted_app_1_elem_of; [exact Hsorted|done|].
          apply list_elem_of_here. }
        rewrite Hlast in Hout |- *.
        destruct (Hskip (tick w) s1 (temp ++ [e]) Hs1)
          as (Hq' & kept & -> & Hsub & Hk); [done|cbn; lia| |done|].
        { by rewrite <- app_assoc. }
        split; [done|]. exists (e :: kept). rewrite <- app_assoc.
        split; [done|]. split; [by apply sublist_skip|].
        intros x [->|Hx]%elem_of_cons; [|by apply Hk].
        exists (ticks w). split; [lia|done].
      * set (placed := bind (select_server (req_size_of e) first others)
                         (fun server_name =>
                            _assign_to_server server_name (req_size_of e))
                         (tick w) s1) in *.
        pose proof (placement_keeps_queue rest (request_timeout s)
                      (req_size_of e) first others (tick w) s1 Hs1) as Hkeep.
        destruct (steady_placement (req_size_of e) first others (tick w) s1)
          as [Hc Hle].
        fold placed in Hkeep, Hc, Hle.
        destruct (out placed); [|done].
        destruct (Hskip (world placed) (st placed) temp Hkeep)
          as (Hq' & kept & -> & Hsub & Hk); [done|cbn in Hle; lia|done|done|].
        split; [done|]. exists kept. split; [done|]. split; [|done].
        by apply sublist_cons.
Qed.

End QueuePass.

Section QueuePassClaims.

Import LoadAwareBalancer.

(** X16.  On any state whose queue is in [get()] order, a sweep that returns leaves
    a queue in [get()] order that is a sub-sequence of the old one: the
    tuples it puts back are unchanged and in their old relative order,
    whether or not other tuples were placed or dropped in between.  Every
    tuple it puts back was within the timeout at a clock reading the sweep
    took. *)
Theorem sweep_requeues_in_order (self : state) (w : World) :
  StronglySorted entry_le (request_queue self) ->
  out (_update_server_states w self) = Return tt ->
  let queue' := request_queue (st (_update_server_states w self)) in
  StronglySorted entry_le queue' /\
  queue' `sublist_of` request_queue self /\
  forall e, e ∈ queue' ->
    exists k, (ticks w < k)%nat /\
              (clock w k - timestamp_of e <= request_timeout self)%Q.
Proof.
  intros Hsorted Hout. cbv zeta.
  unfold _update_server_states, bind, time_time, get in Hout |- *.
  cbn [out st world] in Hout |- *.
  set (r1 := for_each (servers self).*1
               (reclaim_server (clock w (ticks w))) (tick w) self) in *.
  assert (H1 : queue_and_timeout (request_queue self) (request_timeout self)
                 (st r1)).
  { apply (keeps_for_each
             (queue_and_timeout (request_queue self) (request_timeout self)));
      [|done].
    intros name. apply keeps_reclaim_server.
    - by intros s n srv srv' [? ?] _ _ _.
    - by intros s req_id [? ?]. }
  assert (H1w : clock (world r1) = clock w /\ (ticks w < ticks (world r1))%nat).
  { destruct (steady_for_each (servers self).*1
                (reclaim_server (clock w (ticks w)))
                (steady_reclaim_server (clock w (ticks w))) (tick w) self)
      as [Hc Hle].
    fold r1 in Hc, Hle. cbn in Hc, Hle. split; [done|lia]. }
  destruct H1 as [Hq1 Ht1]. destruct H1w as [Hc1 Hle1].
  destruct (out r1); [|done]. rewrite Hq1 in Hout |- *.
  set (r2 := drain_queue (request_queue self) [] (world r1) (st r1)) in *.
  destruct (out r2) as [temp'|x] eqn:Hout2; [|done].
  destruct (drain_queue_keeps_order (request_queue self) [] (world r1) (st r1)
              temp' Hq1 Hsorted Hout2) as (Hq2 & kept & -> & Hsub & Hk).
  fold r2 in Hq2. cbn [app] in *.
  assert (Hkept : StronglySorted entry_le kept)
    by by eapply StronglySorted_sublist.
  rewrite requeue_run by by rewrite Hq2.
  cbn [st set_request_queue request_queue]. rewrite Hq2. cbn [app].
  split; [done|]. split; [done|].
  intros e He. destruct (Hk e He) as (k & Hle & Hok).
  exists k. split; [lia|]. rewrite Ht1, Hc1 in Hok. by apply Qltb_false.
Qed.

(** On [two_waiting]: the tuple that fits no server is put back, the one
    that fits is placed. *)
Lemma sweep_requeues_in_order_witness :
  let queue' := request_queue (st (_update_server_states still_world two_waiting)) in
  StronglySorted entry_le queue' /\
  queue' `sublist_of` request_queue two_waiting /\
  forall e, e ∈ queue' ->
    exists k, (ticks still_world < k)%nat /\
              (clock still_world k - timestamp_of e
               <= request_timeout two_waiting)%Q.
Proof.
  apply (sweep_requeues_in_order two_waiting still_world).
  - repeat constructor.
  - by vm_compute.
Defined.

End QueuePassClaims.

(** ** Load-Aware: the reclaim pass of the sweep on any state *)

Section ReclaimPass.

Import LoadAwareBalancer.

Lemma dict_update_middle {V} (before : dict V) (name : string) (v v' : V)
    (rest : dict V) :
  name ∉ before.*1 ->
  dict_update (before ++ (name, v) :: rest) name v' =
  before ++ (name, v') :: rest.
Proof.
  induction before as [|[k0 v0] before IH]; intros Hk; cbn.
  - by rewrite String.eqb_refl.
  - rewrite fmap_cons, not_elem_of_cons in Hk. destruct Hk as [Hne Hk].
    destruct (String.eqb_spec k0 name) as [->|_]; [done|]. by rewrite IH.
Qed.

Lemma dict_update_id {V} (d : dict V) (k : string) (v : V) :
  dict_lookup d k = Some v -> dict_update d k v = d.
Proof.
  induction d as [|[k0 v0] d IH]; cbn [dict_lookup dict_update]; [done|].
  destruct (String.eqb k0 k); [by intros [= ->]|]. intros H. by rewrite IH.
Qed.

Lemma dict_update_twice {V} (d : dict V) (k : string) (v1 v2 : V) :
  dict_update (dict_update d k v1) k v2 = dict_update d k v2.
Proof.
  induction d as [|[k0 v0] d IH]; cbn [dict_update]; [done|].
  destruct (String.eqb k0 k) eqn:E; cbn [dict_update]; rewrite E; [done|].
  by rewrite IH.
Qed.

Lemma without_nil (srv : server) : without [] srv = srv.
Proof.
  unfold without. cbv zeta.
  rewrite map_filter_id by (intros i x _; apply not_elem_of_nil).
  destruct srv; cbn. f_equal. lia.
Qed.

Lemma without_cons (req_id : Z) (ids : list Z) (srv : server)
    (end_time : Q) (size : Z) :
  active_requests srv !! req_id = Some (end_time, size) ->
  without ids
    {| capacity := capacity srv;
       active_requests := delete req_id (active_requests srv);
       current_load := current_load srv - size;
       status := status srv |} =
  without (req_id :: ids) srv.
Proof.
  intros Hr. unfold without. cbv zeta. cbn [capacity active_requests
    current_load status].
  assert (Hf : filter (fun kv : Z * (Q * Z) => kv.1 ∉ ids)
                 (delete req_id (active_requests srv)) =
               filter (fun kv : Z * (Q * Z) => kv.1 ∉ req_id :: ids)
                 (active_requests srv)).
  { apply map_eq. intros i. apply option_eq. intros x.
    rewrite !map_lookup_filter_Some, lookup_delete_Some. cbn [fst].
    rewrite not_elem_of_cons. split.
    - by intros [[Hne Hx] Hi].
    - by intros [Hx [Hne Hi]]. }
  rewrite Hf, (total_size_delete _ _ _ Hr). cbn [snd]. f_equal. lia.
Qed.

Lemma complete_request_run (server_name : string) (req_id : Z)
    (w : World) (s : state) (srv : server) (end_time : Q) (size : Z) :
  dict_lookup (servers s) server_name = Some srv ->
  active_requests srv !! req_id = Some (end_time, size) ->
  complete_request server_name req_id w s =
    {| out := Return tt;
       st := set_completed_requests ({[req_id]} ∪ completed_requests s)
               (set_servers
                  (dict_update (servers s) server_name
                     {| capacity := capacity srv;
                        active_requests := delete req_id (active_requests srv);
                        current_load := current_load srv - size;
                        status := status srv |}) s);
       world := w |}.
Proof.
  intros Hs Hr. unfold complete_request, bind, get, dict_getitem.
  cbn [out st world]. rewrite Hs. cbn [ret out st world]. by rewrite Hr.
Qed.

(** The inner loop of the reclaim pass, for ids that the server holds. *)
Lemma complete_ids_run (server_name : string) (ids : list Z)
    (w : World) (s : state) (srv : server) :
  dict_lookup (servers s) server_name = Some srv ->
  NoDup ids ->
  (forall req_id, req_id ∈ ids -> is_Some (active_requests srv !! req_id)) ->
  for_each ids (complete_request server_name) w s =
    {| out := Return tt;
       st := set_completed_requests (list_to_set ids ∪ completed_requests s)
               (set_servers
                  (dict_update (servers s) server_name (without ids srv)) s);
       world := w |}.
Proof.
  revert s srv. induction ids as [|req_id ids IH]; intros s srv Hs Hnd Hall.
  - cbn [for_each list_to_set foldr]. rewrite without_nil, dict_update_id by done.
    rewrite union_empty_l_L. by destruct s.
  - apply NoDup_cons in Hnd as [Hfresh Hnd].
    destruct (Hall req_id) as [[end_time size] Hr]; [apply list_elem_of_here|].
    cbn [for_each]. unfold bind.
    rewrite (complete_request_run server_name req_id w s srv end_time size)
      by done.
    cbn [out st world].
    rewrite (IH _ {| capacity := capacity srv;
                     active_requests := delete req_id (active_requests srv);
                     current_load := current_load srv - size;
                     status := status srv |}).
    + rewrite <- (without_cons req_id ids srv end_time size) by done.
      unfold set_completed_requests, set_servers.
      cbn [servers request_queue request_timeout request_counter
           completed_requests].
      rewrite dict_update_twice. do 2 f_equal.
      cbn [list_to_set]. rewrite (assoc_L (∪)). f_equal. apply (comm_L (∪)).
    + cbn [set_completed_requests set_servers servers].
      by eapply dict_lookup_update.
    + done.
    + intros i Hi. cbn [active_requests].
      destruct (Hall i) as [x Hx]; [by apply list_elem_of_further|].
      exists x. apply lookup_delete_Some. split; [|done].
      intros ->. done.
Qed.

Lemma completed_ids_held (current_time : Q) (srv : server) :
  NoDup (completed_ids current_time srv) /\
  forall req_id, req_id ∈ completed_ids current_time srv ->
    is_Some (active_requests srv !! req_id).
Proof.
  unfold completed_ids. split.
  - eapply sublist_NoDup; [apply (NoDup_fst_map_to_list (active_requests srv))|].
    apply fmap_sublist. induction (map_to_list (active_requests srv))
      as [|[i [e z]] l IH]; cbn [List.filter]; [done|].
    destruct (Qle_bool e current_time); [by apply sublist_skip|by apply sublist_cons].
  - intros i Hi. apply list_elem_of_fmap in Hi as ([j x] & -> & Hin).
    apply list_elem_of_In, filter_In in Hin as [Hin _].
    apply list_elem_of_In, elem_of_map_to_list in Hin. by exists x.
Qed.

Lemma reclaim_server_run (current_time : Q) (server_name : string)
    (w : World) (s : state) (srv : server) :
  dict_lookup (servers s) server_name = Some srv ->
  reclaim_server current_time server_name w s =
    {| out := Return tt;
       st := set_completed_requests
               (list_to_set (completed_ids current_time srv)
                ∪ completed_requests s)
               (set_servers
                  (dict_update (servers s) server_name
                     (without (completed_ids current_time srv) srv)) s);
       world := w |}.
Proof.
  intros Hs. destruct (completed_ids_held current_time srv) as [Hnd Hall].
  unfold reclaim_server, bind, get, dict_getitem. cbn [out st world].
  rewrite Hs. cbn [ret out st world].
  by apply complete_ids_run.
Qed.

(** The outer loop of the reclaim pass. *)
Lemma reclaim_loop_run (current_time : Q) (before todo : dict server)
    (w : World) (s : state) :
  servers s = (swept_server current_time <$> before) ++ todo ->
  NoDup (before ++ todo).*1 ->
  for_each todo.*1 (reclaim_server current_time) w s =
    {| out := Return tt;
       st := set_completed_requests
               (completed_requests s ∪ elapsed_ids current_time todo)
               (set_servers (swept_server current_time <$> (before ++ todo)) s);
       world := w |}.
Proof.
  revert before s. induction todo as [|[name srv] todo IH]; intros before s Hs Hnd.
  - cbn [fmap list_fmap for_each]. unfold elapsed_ids. cbn [fmap list_fmap union_list foldr].
    rewrite app_nil_r in *. rewrite union_empty_r_L, <- Hs. by destruct s.
  - rewrite fmap_cons. cbn [for_each fst]. unfold bind.
    assert (Hfresh : name ∉ (swept_server current_time <$> before).*1).
    { rewrite <- list_fmap_compose.
      rewrite fmap_app, fmap_cons in Hnd. apply NoDup_app in Hnd as (_ & Hd & _).
      intros Hin. apply list_elem_of_fmap in Hin as ([n x] & -> & Hin).
      apply (Hd n); [|apply list_elem_of_here].
      apply list_elem_of_fmap. by exists (n, x). }
    destruct (dict_middle _ name srv todo Hfresh) as [Hlook _].
    rewrite (reclaim_server_run current_time name w s srv) by by rewrite Hs.
    cbn [out st world]. rewrite Hs, (dict_update_middle _ _ _ _ _ Hfresh).
    rewrite (IH (before ++ [(name, srv)])).
    + unfold set_completed_requests, set_servers.
      cbn [servers request_queue request_timeout request_counter
           completed_requests].
      rewrite <- app_assoc. cbn [app]. do 2 f_equal.
      unfold elapsed_ids. rewrite fmap_cons, union_list_cons. cbn [snd].
      by rewrite (comm_L _ _ (completed_requests s)), (assoc_L _).
    + cbn [set_completed_requests set_servers servers].
      rewrite fmap_app, <- app_assoc. done.
    + by rewrite <- app_assoc.
Qed.

(** X17.  With nothing in the pending queue and unique server names, the sweep
    never raises.  It reads the clock once; on every server it pops exactly
    the active requests whose completion time is not after that reading and
    lowers the load by their sizes; it adds exactly their ids to
    [completed_requests]; it changes nothing else.  No request that is left
    has completed. *)
Theorem sweep_reclaims_elapsed (self : state) (w : World) :
  NoDup (servers self).*1 ->
  request_queue self = [] ->
  let t := clock w (ticks w) in
  let r := _update_server_states w self in
  r = {| out := Return tt;
         st := set_completed_requests
                 (completed_requests self ∪ elapsed_ids t (servers self))
                 (set_servers (swept_server t <$> servers self) self);
         world := tick w |} /\
  forall name srv req_id end_time size,
    (name, srv) ∈ servers (st r) ->
    active_requests srv !! req_id = Some (end_time, size) ->
    (t < end_time)%Q.
Proof.
  intros Hnd Hq. cbv zeta.
  assert (Hrun : _update_server_states w self =
    {| out := Return tt;
       st := set_completed_requests
               (completed_requests self
                ∪ elapsed_ids (clock w (ticks w)) (servers self))
               (set_servers (swept_server (clock w (ticks w)) <$> servers self)
                  self);
       world := tick w |}).
  { unfold _update_server_states, bind, time_time, get. cbn [out st world].
    rewrite (reclaim_loop_run (clock w (ticks w)) [] (servers self)) by done.
    cbn [out st world app set_completed_requests set_servers request_queue].
    by rewrite Hq. }
  rewrite Hrun. split; [done|].
  cbn [st set_completed_requests set_servers servers].
  intros name srv req_id end_time size Hin Hr.
  apply list_elem_of_fmap in Hin as ([n srv0] & [= -> ->] & Hin).
  cbn [snd without active_requests] in Hr.
  apply map_lookup_filter_Some in Hr as [Hr Hnot]. cbn [fst] in Hnot.
  apply Qltb_spec. unfold Qltb.
  destruct (Qle_bool end_time (clock w (ticks w))) eqn:E; [exfalso|done].
  apply Hnot. unfold completed_ids.
  apply list_elem_of_fmap. exists (req_id, (end_time, size)). split; [done|].
  apply list_elem_of_In, filter_In. split; [|done].
  by apply list_elem_of_In, elem_of_map_to_list.
Qed.

(** On [placed_and_queued] with its queue emptied, swept at time 1000: the
    request on [A] is popped and its id recorded. *)
Lemma sweep_reclaims_elapsed_witness :
  let self := set_request_queue [] placed_and_queued in
  let t := clock far_world (ticks far_world) in
  let r := _update_server_states far_world self in
  r = {| out := Return tt;
         st := set_completed_requests
                 (completed_requests self ∪ elapsed_ids t (servers self))
                 (set_servers (swept_server t <$> servers self) self);
         world := tick far_world |} /\
  forall name srv req_id end_time size,
    (name, srv) ∈ servers (st r) ->
    active_requests srv !! req_id = Some (end_time, size) ->
    (t < end_time)%Q.
Proof.
  apply (sweep_reclaims_elapsed (set_request_queue [] placed_and_queued)
           far_world).
  - compute_done.
  - reflexivity.
Defined.

End ReclaimPass.

(** ** Least-Connections: load and active sizes *)

Section LeastConnectionsLoad.

Import LeastConnectionsBalancer.

(** X18.  In every reachable state of the Least-Connections router, that is
    after construction and after every call of [assign_request] and of
    [release_connection], the current load of every server is the sum of the
    sizes of its active requests: the reclaim pass lowers the load by the
    sizes of the requests it drops, and an admission raises it by the size of
    the request it appends. *)
Theorem lc_load_is_sum_of_active_sizes
    (self : state) (name : string) (data : server) :
  reachable self -> (name, data) ∈ servers self ->
  current_load data = total_size (active_requests data).
Proof.
  intros Hr Hin. apply lc_reachable_balanced in Hr as [_ Hb].
  by apply (Hb name).
Qed.

(** Two requests of size 90 on the script's pool: the second does not fit
    [web-01] and goes to [web-02]. *)
Lemma lc_load_is_sum_of_active_sizes_witness :
  exists data,
    dict_lookup
      (servers (st (assign_request 90 still_world
                      (st (assign_request 90 still_world (init pool_web))))))
      "web-02" = Some data /\
    current_load data = 90 /\
    current_load data = total_size (active_requests data).
Proof.
  eexists. split; [reflexivity|]. split; [reflexivity|].
  apply (lc_load_is_sum_of_active_sizes
           (st (assign_request 90 still_world
                  (st (assign_request 90 still_world (init pool_web)))))
           "web-02").
  - apply reachable_assign, reachable_assign, reachable_init. compute_done.
  - apply dict_lookup_In. reflexivity.
Defined.

End LeastConnectionsLoad.

(** ** Load-Aware: the ids under which requests are filed *)

Section Filing.

Import LoadAwareBalancer.

Variable req_id : Z.

Lemma unfiled_set_request_queue (q : list entry) (s : state) :
  unfiled req_id s -> unfiled req_id (set_request_queue q s).
Proof. done. Qed.

Lemma unfiled_complete_request (server_name : string) (done_id : Z) :
  keeps (unfiled req_id) (complete_request server_name done_id).
Proof.
  intros w s (Hlt & Hactive & Hdone).
  unfold complete_request, bind, get, dict_getitem. cbn [out st world].
  destruct (dict_lookup (servers s) server_name) as [srv|] eqn:E;
    cbn [ret raise out st world]; [|done].
  destruct (active_requests srv !! done_id) as [[end_time size]|] eqn:Hid;
    cbn [put raise st]; [|done].
  pose proof (Hactive server_name srv (dict_lookup_In _ _ _ E)) as Hsrv.
  assert (Hne : done_id <> req_id) by congruence.
  unfold unfiled, set_completed_requests, set_servers.
  cbn [request_counter servers completed_requests].
  split; [done|]. split.
  - intros name srv' [Hin|[_ ->]]%dict_update_In; [by eapply Hactive|].
    cbn [active_requests]. by rewrite lookup_delete_ne.
  - rewrite elem_of_union, elem_of_singleton. intros [Heq|Hin]; [congruence|done].
Qed.

Lemma unfiled_reclaim_server (current_time : Q) (server_name : string) :
  keeps (unfiled req_id) (reclaim_server current_time server_name).
Proof.
  unfold reclaim_server. apply keeps_bind; [apply keeps_get|]. intros self.
  apply keeps_bind; [apply keeps_dict_getitem|]. intros srv.
  apply keeps_for_each. intros done_id. apply unfiled_complete_request.
Qed.

(** A placement is filed under the value of the counter. *)
Lemma unfiled_assign_to_server (server_name : string) (request_size : Z) :
  keeps (unfiled req_id) (_assign_to_server server_name request_size).
Proof.
  intros w s (Hlt & Hactive & Hdone).
  unfold _assign_to_server, bind, random_uniform, bind, random_random,
    time_time, get, dict_getitem.
  cbn [ret out st world].
  destruct (dict_lookup (servers s) server_name) as [srv|] eqn:E;
    cbn [ret raise put out st world]; [|done].
  unfold unfiled, set_servers. cbn [request_counter servers completed_requests].
  split; [done|]. split; [|done].
  intros name srv' [Hin|[_ ->]]%dict_update_In; [by eapply Hactive|].
  cbn [active_requests]. rewrite lookup_insert_ne by lia.
  eapply Hactive, dict_lookup_In, E.
Qed.

Lemma unfiled_drain_queue (pending temp_queue : list entry) :
  keeps (unfiled req_id) (drain_queue pending temp_queue).
Proof.
  revert temp_queue. induction pending as [|e rest IH]; intros temp_queue.
  - apply keeps_ret.
  - cbn [drain_queue].
    apply keeps_bind;
      [apply keeps_modify; intros s; apply unfiled_set_request_queue|].
    intros _. apply keeps_bind; [apply keeps_time_time|]. intros now.
    apply keeps_bind; [apply keeps_get|]. intros self.
    destruct (Qltb (request_timeout self) (now - timestamp_of e)); [apply IH|].
    destruct (feasible (req_size_of e) (servers self)) as [|first others];
      [apply IH|].
    apply keeps_bind; [apply keeps_select_server|]. intros server_name.
    apply keeps_bind; [apply unfiled_assign_to_server|]. intros _. apply IH.
Qed.

Lemma unfiled_update_server_states :
  keeps (unfiled req_id) _update_server_states.
Proof.
  unfold _update_server_states.
  apply keeps_bind; [apply keeps_time_time|]. intros current_time.
  apply keeps_bind; [apply keeps_get|]. intros self.
  apply keeps_bind.
  { apply keeps_for_each. intros name. apply unfiled_reclaim_server. }
  intros _. apply keeps_bind; [apply keeps_get|]. intros self'.
  apply keeps_bind; [apply unfiled_drain_queue|]. intros temp_queue.
  apply keeps_for_each. intros e. apply keeps_modify. intros s.
  apply unfiled_set_request_queue.
Qed.

Lemma unfiled_assign_request (request_size priority : Z) :
  keeps (unfiled req_id) (assign_request request_size priority).
Proof.
  unfold assign_request.
  apply keeps_bind; [apply unfiled_update_server_states|]. intros _.
  apply keeps_bind; [apply keeps_time_time|]. intros current_time.
  apply keeps_bind.
  { apply keeps_modify. intros s (Hlt & Hactive & Hdone).
    split; [cbn; lia|done]. }
  intros _. apply keeps_bind; [apply keeps_get|]. intros self.
  apply keeps_bind.
  { apply keeps_filter_comp. intros [name srv].
    destruct (is_healthy (status srv)); [|apply keeps_ret].
    apply keeps_bind; [apply keeps_raise|]. intros v. apply keeps_ret. }
  intros available_servers.
  destruct (available_servers.*1) as [|first others].
  - apply keeps_bind;
      [apply keeps_modify; intros s; apply unfiled_set_request_queue|].
    intros _. apply keeps_bind; [apply keeps_get|]. intros self'.
    apply keeps_ret.
  - apply keeps_bind; [apply keeps_select_server|]. intros server_name.
    apply keeps_bind; [apply unfiled_assign_to_server|]. intros _.
    apply keeps_ret.
Qed.

Lemma unfiled_health_check_round : keeps (unfiled req_id) health_check_round.
Proof.
  intros w s (Hlt & Hactive & Hdone).
  unfold health_check_round, bind, get. cbn [out st world].
  destruct (health_check_frame (servers s).*1 w s) as (Hsub & _ & Hc).
  split; [by rewrite health_check_counter|]. split; [|by rewrite Hc].
  intros name srv Hin. eapply Hactive, Hsub, Hin.
Qed.

(** X19.  Requests are filed under the value of the counter only.  On any
    state, a request id below the counter that is in no server's active
    requests and not in [completed_requests] stays so through every sequence
    of calls of [assign_request], sweeps and health-check rounds, whatever
    they return or raise: the id of a request that waits in the queue, or
    that a sweep dropped from it, is never the id under which a request is
    placed or completed. *)
Theorem unfiled_id_is_never_filed (self self' : state) :
  unfiled req_id self -> later self self' -> unfiled req_id self'.
Proof.
  intros Hself. induction 1; [done|..].
  - by apply unfiled_assign_request.
  - by apply unfiled_update_server_states.
  - by apply unfiled_health_check_round.
Qed.

End Filing.

Section FilingExample.

Import LoadAwareBalancer.

(** On [backlog], swept at time 1 and then called: the sweep places the
    request that waits under id 3, yet nothing is on file under 3
    afterwards. *)
Lemma unfiled_id_is_never_filed_witness :
  let r := _update_server_states settled_world backlog in
  let self' := st (assign_request 20 1 (world r) (st r)) in
  3 ∈ pending_ids backlog /\ (3 ∉ pending_ids self') /\ unfiled 3 self'.
Proof.
  cbv zeta. split; [apply list_elem_of_here|]. split.
  - compute_done.
  - apply (unfiled_id_is_never_filed 3 backlog).
    + split; [reflexivity|]. split; [|apply not_elem_of_empty].
      intros name srv Hin. unfold backlog in Hin. cbn [servers] in Hin.
      repeat (apply elem_of_cons in Hin as [[= -> ->]|Hin]; [done|]).
      by apply not_elem_of_nil in Hin.
    + apply later_assign, later_sweep, later_now.
Defined.

End FilingExample.
